(** * fastbound_importer: column reconciliation, verified against the code

    A shallow embedding of [fastbound_importer.py].  Python values are
    rendered as follows.

    - A [str] is a Rocq [string]; each character stands for the code point
      of the same number (U+0000 to U+00FF), on which [str.lower],
      [str.isalnum] and [str.strip] are tabulated exactly.  The hint
      sentences of the guidance sheet are only ever concatenated, so they
      are kept as the bytes of the source file.
    - A [dict] is an insertion-ordered association list: assigning to a
      key that is present replaces the value in place, a new key goes to
      the end.
    - A raising call returns [Raise e] in the [result] type.
    - A float is an exact rational: [2.0 * M / T] is the fraction
      [2M / T], of which Python holds the nearest double. *)

From Stdlib Require Import String Ascii List Bool Arith PeanoNat Lia ZArith QArith Lqa.
Import ListNotations.
Local Close Scope Q_scope.
Local Open Scope nat_scope.
Local Open Scope string_scope.
Local Open Scope list_scope.

Set Implicit Arguments.

(** ** Python characters and strings *)

Module Str.

Definition code (c : ascii) : nat := nat_of_ascii c.

Definition between (lo hi n : nat) : bool := (lo <=? n)%nat && (n <=? hi)%nat.

(** [ch.isalnum()] on the code points below 256. *)
Definition isalnum (c : ascii) : bool :=
  let n := code c in
  between 48 57 n || between 65 90 n || between 97 122 n
  || (n =? 170)%nat || between 178 179 n || (n =? 181)%nat
  || between 185 186 n || between 188 190 n
  || between 192 214 n || between 216 246 n || between 248 255 n.

(** [ch.lower()] on the code points below 256. *)
Definition lower_char (c : ascii) : ascii :=
  let n := code c in
  if between 65 90 n || between 192 214 n || between 216 222 n
  then ascii_of_nat (n + 32) else c.

(** [ch.isspace()] on the code points below 256. *)
Definition isspace (c : ascii) : bool :=
  let n := code c in
  between 9 13 n || between 28 32 n || (n =? 133)%nat || (n =? 160)%nat.

Fixpoint lower (s : string) : string :=
  match s with
  | EmptyString => EmptyString
  | String c s' => String (lower_char c) (lower s')
  end.

(** [''.join(ch for ch in s if ch.isalnum())] *)
Fixpoint join_alnum (s : string) : string :=
  match s with
  | EmptyString => EmptyString
  | String c s' => if isalnum c then String c (join_alnum s') else join_alnum s'
  end.

Fixpoint lstrip (s : string) : string :=
  match s with
  | EmptyString => EmptyString
  | String c s' => if isspace c then lstrip s' else s
  end.

Fixpoint rstrip (s : string) : string :=
  match s with
  | EmptyString => EmptyString
  | String c s' =>
      match rstrip s' with
      | EmptyString => if isspace c then EmptyString else String c EmptyString
      | r => String c r
      end
  end.

(** [s.strip()] *)
Definition strip (s : string) : string := rstrip (lstrip s).

(** [k in key] for two strings: [k] occurs in [key] as a substring. *)
Fixpoint contains (key k : string) : bool :=
  prefix k key ||
  match key with
  | EmptyString => false
  | String _ key' => contains key' k
  end.

(** [sep.join(parts)] *)
Fixpoint join (sep : string) (parts : list string) : string :=
  match parts with
  | [] => ""
  | [p] => p
  | p :: rest => p ++ sep ++ join sep rest
  end.

(** Truth value of a string: the empty string is false. *)
Definition truthy (s : string) : bool :=
  match s with EmptyString => false | _ => true end.

(** Tuple comparison [s1 > s2] on strings is by code point. *)
Definition gtb (s1 s2 : string) : bool := String.ltb s2 s1.

End Str.

(** ** [norm] *)

(** [def norm(s): return ''.join(ch for ch in str(s).lower() if ch.isalnum())] *)
Definition norm (s : string) : string := Str.join_alnum (Str.lower s).
(** ** Python dictionaries *)

(** Keys are compared with [==]; for the key types used here that is
    structural equality. *)
Class EqKey (K : Type) := {
  keqb : K -> K -> bool;
  keqb_spec : forall x y, reflect (x = y) (keqb x y)
}.

#[export] Instance string_EqKey : EqKey string :=
  {| keqb := String.eqb; keqb_spec := String.eqb_spec |}.

#[export] Instance ascii_EqKey : EqKey ascii :=
  {| keqb := Ascii.eqb; keqb_spec := Ascii.eqb_spec |}.

Definition dict (K V : Type) : Type := list (K * V).

Module Dict.
Section Ops.
Context {K V : Type} `{EqKey K}.

(** [d.get(k)]: [None] when the key is absent. *)
Fixpoint get (d : dict K V) (k : K) : option V :=
  match d with
  | [] => None
  | (k', v) :: d' => if keqb k k' then Some v else get d' k
  end.

(** [k in d] *)
Definition mem (d : dict K V) (k : K) : bool :=
  match get d k with Some _ => true | None => false end.

(** [d[k] = v]: a present key keeps its place, a new one is appended. *)
Fixpoint set (d : dict K V) (k : K) (v : V) : dict K V :=
  match d with
  | [] => [(k, v)]
  | (k', v') :: d' =>
      if keqb k k' then (k', v) :: d' else (k', v') :: set d' k v
  end.

Definition keys (d : dict K V) : list K := map fst d.

(** [{key(c): value(c) for c in xs}] *)
Definition comprehension {A : Type} (key : A -> K) (value : A -> V)
           (xs : list A) : dict K V :=
  fold_left (fun d c => set d (key c) (value c)) xs [].
End Ops.
End Dict.

(** ** Exceptions *)

Inductive exn : Type :=
| ValueError (msg : string)
| KeyError (key : string)
| NameError (name : string)
| RuntimeError (msg : string)
| FileNotFoundError (msg : string).

Inductive result (A : Type) : Type :=
| Ok (a : A)
| Raise (e : exn).
Arguments Ok {A} a.
Arguments Raise {A} e.

Definition bind {A B : Type} (r : result A) (f : A -> result B) : result B :=
  match r with
  | Ok a => f a
  | Raise e => Raise e
  end.

Notation "x <- r ;; k" := (bind r (fun x => k))
  (at level 61, r at next level, right associativity).

(** A [for] loop whose body may raise: the first exception ends the loop. *)
Fixpoint for_each {S A : Type} (body : S -> A -> result S) (xs : list A) (s : S)
  : result S :=
  match xs with
  | [] => Ok s
  | x :: xs' => s' <- body s x ;; for_each body xs' s'
  end.

(** ** The alias table *)

Definition ALIASES : dict string (list string) :=
  [ ("serialnumber", ["serial"; "serialnumber"; "s/n"; "sn"]);
    ("manufacturer", ["manufacturer"; "maker"; "make"]);
    ("importer", ["importer"]);
    ("model", ["model"; "mdl"]);
    ("type", ["type"; "firearmtype"; "guntype"]);
    ("caliber", ["caliber"; "calibre"; "gauge"]);
    ("barrellength",
       ["barrellength"; "barrel"; "bbl"; "lengthofbarrel"; "barrellength(in)"]);
    ("overalllength", ["overalllength"; "oal"]);
    ("finish", ["finish"; "color"; "colour"]);
    ("countryofmanufacture",
       ["countryofmanufacture"; "country"; "manufacturecountry"]);
    ("upc", ["upc"; "barcode"]);
    ("sku", ["sku"; "item#"; "itemnumber"; "pn"; "partnumber"]);
    ("acquisitiondate",
       ["acquisitiondate"; "dateacquired"; "dateofacquisition"; "receiveddate"]);
    ("acquiredfromname", ["acquiredfromname"; "supplier"; "vendor"; "acquiredfrom"]);
    ("acquiredfromaddress",
       ["acquiredfromaddress"; "supplieraddress"; "vendoraddress"]);
    ("acquiredfromffl", ["acquiredfromffl"; "supplierffl"; "vendorffl"; "ffl"]);
    ("acquiredfromlicensetype", ["acquiredfromlicensetype"; "supplierlicensetype"]);
    ("acquiredfromcity", ["acquiredfromcity"; "suppliercity"]);
    ("acquiredfromstate", ["acquiredfromstate"; "supplierstate"]);
    ("acquiredfromzip", ["acquiredfromzip"; "supplierzip"; "zipcode"; "zip"]);
    ("acquisitiondocument",
       ["acquisitiondocument"; "invoice"; "ponumber"; "po"; "bo"]);
    ("dispositiondate",
       ["dispositiondate"; "dateofdisposition"; "datesold"; "transferdate";
        "disposeddate"]);
    ("disposedtoname",
       ["disposedtoname"; "customername"; "buyername"; "transfereename"]);
    ("disposedtoaddress",
       ["disposedtoaddress"; "customeraddress"; "buyeraddress"]);
    ("disposedtocity", ["disposedtocity"; "customercity"]);
    ("disposedtostate", ["disposedtostate"; "customerstate"]);
    ("disposedtozip", ["disposedtozip"; "customerzip"; "zip"]);
    ("disposedtoffl", ["disposedtoffl"; "destinationffl"; "receiverffl"; "ffl"]);
    ("form4473", ["4473"; "form4473"; "4473number"; "4473#"]);
    ("nicsnumber", ["nicsnumber"; "nics"; "ntn"; "backgroundchecknumber"]);
    ("nicsstatus", ["nicsstatus"; "backgroundstatus"; "status"]);
    ("nicsexpiration", ["nicsexpiration"; "nicsvaliduntil"; "ntnexpire"]);
    ("transactionnumber", ["transactionnumber"; "trans#"; "ttn"; "ntn"]);
    ("permitnumber", ["permit"; "permitnumber"; "cwfl"; "ccw"]);
    ("permitexpiration", ["permitexpiration"; "permitexpires"]);
    ("birthdate", ["dob"; "dateofbirth"; "birthdate"]);
    ("idnumber", ["idnumber"; "driverlicense"; "dl"; "identificationnumber"]);
    ("idstate", ["idstate"; "dlstate"]);
    ("cost", ["cost"; "unitcost"]);
    ("price", ["price"; "saleprice"; "sellingprice"; "amount"]) ].

(** ** [difflib] as called by [build_mapping]

    [get_close_matches(word, possibilities, n=1, cutoff)] of the Python
    library, with [SequenceMatcher(isjunk=None, autojunk=True)].  A range
    [a[alo:ahi]], [b[blo:bhi]] of the library is a pair of slices here, and
    the positions of a block are counted from the start of the slices. *)

Module Difflib.

Definition count (c : ascii) (s : list ascii) : nat := count_occ ascii_dec s c.

(** [__chain_b]: with 200 elements or more in [b], an element occurring
    more than [n // 100 + 1] times is popular and leaves [b2j]. *)
Definition popular (b : list ascii) (c : ascii) : bool :=
  (200 <=? length b)%nat && (length b / 100 + 1 <? count c b)%nat.

Definition block : Type := (nat * nat * nat)%type.
Definition bestsize (m : block) : nat := snd m.

Section Matcher.
Variable pop : ascii -> bool.

(** The inner loop of [find_longest_match] for the element [x = a[i]]:
    [newj2len] over the positions of [b], 0 where the dict has no entry;
    [diag] is [j2len.get(j-1, 0)]. *)
Fixpoint next_row (x : ascii) (b : list ascii) (diag : nat) (j2len : list nat)
  : list nat :=
  match b with
  | [] => []
  | y :: b' =>
      (if Ascii.eqb x y && negb (pop x) then S diag else 0)
        :: next_row x b' (hd 0 j2len) (tl j2len)
  end.

(** [if k > bestsize: besti, bestj, bestsize = i-k+1, j-k+1, k], for
    [j] increasing. *)
Fixpoint scan_row (i j : nat) (row : list nat) (best : block) : block :=
  match row with
  | [] => best
  | k :: row' =>
      scan_row i (S j) row'
        (if (bestsize best <? k)%nat then (i + 1 - k, j + 1 - k, k) else best)
  end.

(** [for i in range(alo, ahi)] *)
Fixpoint junk_free (a b : list ascii) (i : nat) (j2len : list nat) (best : block)
  : block :=
  match a with
  | [] => best
  | x :: a' =>
      let newj2len := next_row x b 0 j2len in
      junk_free a' b (S i) newj2len (scan_row i 0 newj2len best)
  end.

Definition same_elt (x y : option ascii) : bool :=
  match x, y with
  | Some c, Some d => Ascii.eqb c d
  | _, _ => false
  end.

(** [while besti > alo and bestj > blo and a[besti-1] == b[bestj-1]];
    nothing is junk, so [isbjunk] is constantly false. *)
Fixpoint extend_left (a b : list ascii) (besti bestj size : nat) : block :=
  match besti, bestj with
  | S i', S j' =>
      if same_elt (nth_error a i') (nth_error b j')
      then extend_left a b i' j' (S size)
      else (besti, bestj, size)
  | _, _ => (besti, bestj, size)
  end.

(** [while besti+bestsize < ahi and bestj+bestsize < bhi and
    a[besti+bestsize] == b[bestj+bestsize]], on the two rests
    [a[besti+bestsize:]] and [b[bestj+bestsize:]]. *)
Fixpoint extend_right (ra rb : list ascii) (size : nat) : nat :=
  match ra, rb with
  | x :: ra', y :: rb' =>
      if Ascii.eqb x y then extend_right ra' rb' (S size) else size
  | _, _ => size
  end.

Definition find_longest_match (a b : list ascii) : block :=
  let '(i0, j0, k0) := junk_free a b 0 [] (0, 0, 0) in
  let '(i1, j1, k1) := extend_left a b i0 j0 k0 in
  (i1, j1, extend_right (skipn (i1 + k1) a) (skipn (j1 + k1) b) k1).

(** [sum(triple[-1] for triple in self.get_matching_blocks())]: the
    block found, then the ranges to its left and to its right. *)
Fixpoint matching_size (fuel : nat) (a b : list ascii) : nat :=
  match fuel with
  | O => 0
  | S fuel' =>
      let '(i, j, k) := find_longest_match a b in
      if (k =? 0)%nat then 0
      else k + matching_size fuel' (firstn i a) (firstn j b)
             + matching_size fuel' (skipn (i + k) a) (skipn (j + k) b)
  end.
End Matcher.

Definition matches (a b : list ascii) : nat :=
  matching_size (popular b) (S (length a)) a b.

(** [_calculate_ratio(matches, length)] *)
Definition calculate_ratio (m length : nat) : Q :=
  if (length =? 0)%nat then 1%Q
  else (Z.of_nat (2 * m) # Pos.of_nat length)%Q.

Definition ratio (a b : list ascii) : Q :=
  calculate_ratio (matches a b) (length a + length b).

(** [quick_ratio]: [fullbcount] counts the elements of [b]; [avail[x]] is
    that count less the occurrences of [x] seen in [a] so far. *)
Definition fullbcount (b : list ascii) : dict ascii Z :=
  fold_left
    (fun d elt =>
       Dict.set d elt (match Dict.get d elt with Some n => n | None => 0 end + 1)%Z)
    b [].

Fixpoint quick_loop (full : dict ascii Z) (a : list ascii) (avail : dict ascii Z)
         (m : nat) : nat :=
  match a with
  | [] => m
  | elt :: a' =>
      let numb :=
        match Dict.get avail elt with
        | Some n => n
        | None => match Dict.get full elt with Some n => n | None => 0%Z end
        end in
      quick_loop full a' (Dict.set avail elt (numb - 1)%Z)
                 (if (0 <? numb)%Z then S m else m)
  end.

Definition quick_ratio (a b : list ascii) : Q :=
  calculate_ratio (quick_loop (fullbcount b) a [] 0) (length a + length b).

Definition real_quick_ratio (a b : list ascii) : Q :=
  calculate_ratio (Nat.min (length a) (length b)) (length a + length b).

(** [x >= cutoff] on scores. *)
Definition geb (x cutoff : Q) : bool := Qle_bool cutoff x.

(** [(score1, x1) > (score2, x2)]: the first components that differ decide. *)
Definition pair_gtb (p q : Q * string) : bool :=
  if Qeq_bool (fst p) (fst q) then Str.gtb (snd p) (snd q)
  else negb (Qle_bool (fst p) (fst q)).

(** [max(it)]: a later item replaces the maximum only when it is greater. *)
Definition py_max (items : list (Q * string)) : option (Q * string) :=
  match items with
  | [] => None
  | p :: rest =>
      Some (fold_left (fun best item => if pair_gtb item best then item else best)
                      rest p)
  end.

(** The scored possibilities that pass the three tests against [cutoff];
    [set_seq2(word)] makes [word] the sequence [b]. *)
Definition good_enough (word : string) (cutoff : Q) (x : string) : bool :=
  let a := list_ascii_of_string x in
  let b := list_ascii_of_string word in
  geb (real_quick_ratio a b) cutoff
  && geb (quick_ratio a b) cutoff
  && geb (ratio a b) cutoff.

Definition score (word x : string) : Q :=
  ratio (list_ascii_of_string x) (list_ascii_of_string word).

(** [get_close_matches(word, possibilities, n=1, cutoff=cutoff)] *)
Definition get_close_matches (word : string) (possibilities : list string)
           (cutoff : Q) : result (list string) :=
  if negb (Qle_bool 0 cutoff && Qle_bool cutoff 1)
  then Raise (ValueError "cutoff must be in [0.0, 1.0]")
  else
    let scored :=
      map (fun x => (score word x, x))
          (filter (good_enough word cutoff) possibilities) in
    Ok (match py_max scored with
        | Some (_, x) => [x]
        | None => []
        end).

End Difflib.

(** ** [build_mapping] *)

(** The third component of a [details] row. *)
Inductive MatchKind : Type :=
| OVERRIDE | OVERRIDE_NORMALIZED | OVERRIDE_NOT_FOUND
| DIRECT | ALIAS | FUZZY | MISSING.

(** The text the code writes in the "Match Type" column. *)
Definition match_type (k : MatchKind) : string :=
  match k with
  | OVERRIDE => "OVERRIDE"
  | OVERRIDE_NORMALIZED => "OVERRIDE(norm)"
  | OVERRIDE_NOT_FOUND => "OVERRIDE-NOTFOUND"
  | DIRECT => "DIRECT"
  | ALIAS => "ALIAS"
  | FUZZY => "FUZZY"
  | MISSING => "MISSING"
  end.

Definition is_override_kind (k : MatchKind) : bool :=
  match k with
  | OVERRIDE | OVERRIDE_NORMALIZED | OVERRIDE_NOT_FOUND => true
  | _ => false
  end.

(** [(fb_col, source, kind)] *)
Definition detail : Type := (string * string * MatchKind)%type.
Definition detail_col (r : detail) : string := fst (fst r).
Definition detail_src (r : detail) : string := snd (fst r).
Definition detail_kind (r : detail) : MatchKind := snd r.

(** [mapping]: FastBound column to ATF column or [None]. *)
Definition Mapping : Type := dict string (option string).

(** The two values that [build_mapping] fills and returns. *)
Definition State : Type := (Mapping * list detail)%type.

Definition record (st : State) (fb_col : string) (src : option string)
           (kind : MatchKind) : State :=
  let '(mapping, details) := st in
  (Dict.set mapping fb_col src,
   details ++ [(fb_col, match src with Some s => s | None => "" end, kind)]).

(** [x in xs] for a list of strings. *)
Definition in_list (x : string) (xs : list string) : bool :=
  existsb (String.eqb x) xs.

(** [atf_norm_map = {norm(c): c for c in atf_cols}] *)
Definition atf_norm_map_of (atf_cols : list string) : dict string string :=
  Dict.comprehension norm (fun c => c) atf_cols.

(** Body of [for fb_col, atf_src in overrides.items()]. *)
Definition apply_override (atf_cols : list string) (atf_norm_map : dict string string)
           (st : State) (item : string * string) : State :=
  let '(fb_col, atf_src) := item in
  if in_list atf_src atf_cols then record st fb_col (Some atf_src) OVERRIDE
  else
    let key := norm atf_src in
    match Dict.get atf_norm_map key with
    | Some c => record st fb_col (Some c) OVERRIDE_NORMALIZED
    | None => record st fb_col None OVERRIDE_NOT_FOUND
    end.

(** Truth value of [hit], which is [None] or a column name. *)
Definition hit_truthy (hit : option string) : bool :=
  match hit with
  | Some s => Str.truthy s
  | None => false
  end.

(** [for a in alias_list+[target]: k = norm(a); if k in atf_norm_map:
    hit = atf_norm_map[k]; break] *)
Fixpoint first_alias (atf_norm_map : dict string string) (names : list string)
         (hit : option string) : option string :=
  match names with
  | [] => hit
  | a :: rest =>
      match Dict.get atf_norm_map (norm a) with
      | Some c => Some c
      | None => first_alias atf_norm_map rest hit
      end
  end.

(** [for target, alias_list in ALIASES.items(): ...; if hit: break] *)
Fixpoint alias_loop (atf_norm_map : dict string string) (fb_key : string)
         (groups : list (string * list string)) (hit : option string)
  : option string :=
  match groups with
  | [] => hit
  | (target, alias_list) :: rest =>
      let names := alias_list ++ [target] in
      let hit' :=
        if String.eqb fb_key target || in_list fb_key (map norm names)
        then first_alias atf_norm_map names hit
        else hit in
      if hit_truthy hit' then hit' else alias_loop atf_norm_map fb_key rest hit'
  end.

(** The fuzzy stage: [cand = get_close_matches(fb_key, list(keys), n=1,
    cutoff=fuzzy_cutoff)], then [atf_norm_map[cand[0]]]. *)
Definition fuzzy_stage (atf_norm_map : dict string string) (fuzzy_cutoff : Q)
           (st : State) (fb_col fb_key : string) : result State :=
  cand <- Difflib.get_close_matches fb_key (Dict.keys atf_norm_map) fuzzy_cutoff ;;
  match cand with
  | k :: _ =>
      match Dict.get atf_norm_map k with
      | Some c => Ok (record st fb_col (Some c) FUZZY)
      | None => Raise (KeyError k)
      end
  | [] => Ok (record st fb_col None MISSING)
  end.

(** Body of [for fb_col in fb_cols]. *)
Definition resolve_column (atf_norm_map : dict string string) (fuzzy_cutoff : Q)
           (st : State) (fb_col : string) : result State :=
  if Dict.mem (fst st) fb_col then Ok st
  else
    let fb_key := norm fb_col in
    match Dict.get atf_norm_map fb_key with
    | Some c => Ok (record st fb_col (Some c) DIRECT)
    | None =>
        let hit := alias_loop atf_norm_map fb_key ALIASES None in
        if hit_truthy hit then Ok (record st fb_col hit ALIAS)
        else fuzzy_stage atf_norm_map fuzzy_cutoff st fb_col fb_key
    end.

(** [build_mapping(atf_cols, fb_cols, overrides, fuzzy_cutoff)]; the
    summary line sent to [logger] does not take part in the result. *)
Definition build_mapping (atf_cols fb_cols : list string)
           (overrides : dict string string) (fuzzy_cutoff : Q)
  : result (Mapping * list detail) :=
  let atf_norm_map := atf_norm_map_of atf_cols in
  let st := fold_left (apply_override atf_cols atf_norm_map) overrides ([], []) in
  for_each (resolve_column atf_norm_map fuzzy_cutoff) fb_cols st.

(** A Python [dict] holds each key once. *)
Definition well_formed {V : Type} (d : dict string V) : Prop :=
  NoDup (Dict.keys d).

(** ** Names bound in the module *)

(** The imports and definitions of the module, in the order they are made:
    [import argparse], [import logging],
    [from difflib import get_close_matches], [import pandas as pd],
    [import numpy as np], [from pathlib import Path], [import yaml], then
    the module's own definitions. *)
Definition module_names : list string :=
  [ "argparse"; "logging"; "get_close_matches"; "pd"; "np"; "Path"; "yaml";
    "HAS_YAML"; "norm"; "ALIASES"; "read_overrides"; "build_mapping"; "main" ].

(** Reading a global name that the module never binds raises [NameError]. *)
Definition global (name : string) : result unit :=
  if in_list name module_names then Ok tt else Raise (NameError name).

(** ** [read_overrides] *)

(** What [pd.read_csv] delivers: the header and, for each row, the text
    [str(r[column])] of its cells. *)
Record DataFrame : Type := {
  columns : list string;
  rows : list (string -> string)
}.

(** What a loader returns: a mapping of strings or some other object. *)
Inductive pyobj : Type :=
| PyDict (d : dict string string)
| PyOther.

(** The file behind a path, as the collaborators see it: [p.suffix],
    [p.exists()], and what each parser makes of its text. *)
Record OverrideFile : Type := {
  suffix : string;
  exists_ : bool;
  read_csv : DataFrame;
  json_loads : pyobj;
  safe_load : pyobj
}.

Definition MSG_NOT_FOUND : string := "Arquivo de mapeamento não encontrado".
Definition MSG_CSV_COLUMNS : string :=
  "CSV de override deve ter colunas 'FastBound Column' e 'ATF Source'.".
Definition MSG_NO_YAML : string := "pyyaml não instalado. Rode: pip install pyyaml".
Definition MSG_UNSUPPORTED : string :=
  "Formato de override não suportado. Use CSV, JSON ou YAML.".

(** [read_overrides(path)]; [HAS_YAML] is set when the module is loaded. *)
Definition read_overrides (HAS_YAML : bool) (path : option OverrideFile)
  : result pyobj :=
  match path with
  | None => Ok (PyDict [])
  | Some p =>
      if negb (exists_ p) then Raise (FileNotFoundError MSG_NOT_FOUND)
      else if String.eqb (Str.lower (suffix p)) ".csv" then
        let df := read_csv p in
        if negb (in_list "FastBound Column" (columns df)
                 && in_list "ATF Source" (columns df))
        then Raise (ValueError MSG_CSV_COLUMNS)
        else Ok (PyDict (Dict.comprehension
                           (fun r => Str.strip (r "FastBound Column"))
                           (fun r => Str.strip (r "ATF Source"))
                           (rows df)))
      else if in_list (Str.lower (suffix p)) [".json"] then
        _ <- global "json" ;; Ok (json_loads p)
      else if in_list (Str.lower (suffix p)) [".yml"; ".yaml"] then
        if negb HAS_YAML then Raise (RuntimeError MSG_NO_YAML)
        else Ok (safe_load p)
      else Raise (ValueError MSG_UNSUPPORTED)
  end.

(** ** [main], from the call of [build_mapping] on *)

(** [not mapping.get(c)]: the key is absent, or maps to [None] or to an
    empty name. *)
Definition unmapped (mapping : Mapping) (c : string) : bool :=
  match Dict.get mapping c with
  | Some (Some src) => negb (Str.truthy src)
  | _ => true
  end.

(** [any(k in key for k in ks)] *)
Definition any_in (key : string) (ks : list string) : bool :=
  existsb (Str.contains key) ks.

Definition HINT_SERIAL := "Número de série – marcação na arma / 4473 / registro anterior.".
Definition HINT_MANUFACTURER := "Fabricante – marcação do frame/receiver; nota do fornecedor.".
Definition HINT_IMPORTER := "Importador – marcação no cano/frame; invoice de entrada.".
Definition HINT_MODEL := "Modelo – marcação na arma; invoice/packing slip.".
Definition HINT_CALIBER := "Calibre/ga – gravado no cano/slide; ficha do fabricante.".
Definition HINT_TYPE := "Tipo – pistol/revolver/rifle/shotgun/receiver/other.".
Definition HINT_LENGTH := "Comprimento de cano/OAL – ficha técnica; inspeção.".
Definition HINT_FINISH := "Acabamento/cor – inspeção / descrição do fabricante.".
Definition HINT_UPC := "UPC/SKU – caixa do produto; invoice.".
Definition HINT_ACQUISITION := "Dados de aquisição – fornecedor, data, invoice/PO.".
Definition HINT_DISPOSITION := "Dados de disposição – cliente/FFL, data, 4473, NICS.".
Definition HINT_BACKGROUND := "Background – NICS/POC (número/status/expiração).".
Definition HINT_FFL := "FFL – nº/expiração do destinatário; cópia arquivada.".
Definition HINT_VALUES := "Valores – custo/preço; ERP/nota fiscal.".
Definition HINT_GENERIC :=
  "Verificar notas de entrada, 4473, cópia de FFL e marcações físicas.".

(** [if any(...): hints.append(h)] *)
Definition append_if (cond : bool) (h : string) (hints : list string) : list string :=
  if cond then hints ++ [h] else hints.

(** The body of [for col in missing], up to the joined text. *)
Definition guidance_text (col : string) : string :=
  let key := Str.lower col in
  let hints := [] in
  let hints := append_if (any_in key ["serial"; "sn"]) HINT_SERIAL hints in
  let hints := append_if (any_in key ["manufacturer"; "mfr"; "maker"; "make"])
                         HINT_MANUFACTURER hints in
  let hints := append_if (any_in key ["importer"]) HINT_IMPORTER hints in
  let hints := append_if (any_in key ["model"]) HINT_MODEL hints in
  let hints := append_if (any_in key ["caliber"; "gauge"]) HINT_CALIBER hints in
  let hints := append_if (any_in key ["type"]) HINT_TYPE hints in
  let hints := append_if (any_in key ["barrel"; "length"; "oal"]) HINT_LENGTH hints in
  let hints := append_if (any_in key ["finish"; "color"]) HINT_FINISH hints in
  let hints := append_if (any_in key ["upc"; "sku"]) HINT_UPC hints in
  let hints := append_if
                 (any_in key ["acq"; "acquisition"; "received"; "source";
                              "supplier"; "vendor"])
                 HINT_ACQUISITION hints in
  let hints := append_if
                 (any_in key ["dispo"; "dispose"; "transferee"; "customer";
                              "buyer"; "4473"])
                 HINT_DISPOSITION hints in
  let hints := append_if (any_in key ["nics"; "ttn"; "poc"; "background"])
                         HINT_BACKGROUND hints in
  let hints := append_if (any_in key ["ffl"; "license"]) HINT_FFL hints in
  let hints := append_if (any_in key ["cost"; "price"; "amount"; "msrp"])
                         HINT_VALUES hints in
  let hints := append_if (match hints with [] => true | _ => false end)
                         HINT_GENERIC hints in
  Str.join " | " hints.

(** [missing = [c for c in fb_columns if not mapping.get(c)]] and one row
    [(column, text)] of the sheet "Missing & Guidance" for each. *)
Definition guidance_rows (fb_columns : list string) (mapping : Mapping)
  : list (string * string) :=
  map (fun col => (col, guidance_text col)) (filter (unmapped mapping) fb_columns).

Record Args : Type := {
  strict : bool;
  fuzzy_cutoff : Q
}.

(** How the process ends: [main] returns, [sys.exit(code)] is reached, or
    an exception leaves [main] and the interpreter prints a traceback. *)
Inductive Ending : Type :=
| Returned
| SysExit (code : Z)
| Traceback (e : exn).

(** What a run leaves behind: the rows of the sheets "Mapping Report" and
    "Missing & Guidance", whether the closing lines "Concluído. Saída: ..."
    were logged, and how the process ended. *)
Record Run : Type := {
  mapping_report : list detail;
  missing_guidance : list (string * string);
  confirmed : bool;
  ending : Ending
}.

(** [main] once both header rows and the overrides are read. *)
Definition main (args : Args) (atf_columns fb_columns : list string)
           (overrides : dict string string) : Run :=
  match build_mapping atf_columns fb_columns overrides (fuzzy_cutoff args) with
  | Raise e => {| mapping_report := []; missing_guidance := [];
                  confirmed := false; ending := Traceback e |}
  | Ok (mapping, details) =>
      let guidance := guidance_rows fb_columns mapping in
      let missing_count := length (filter (unmapped mapping) fb_columns) in
      if negb (missing_count =? 0)%nat && strict args then
        (* print(..., file=sys.stderr); sys.exit(2) *)
        match global "sys" with
        | Raise e => {| mapping_report := details; missing_guidance := guidance;
                        confirmed := false; ending := Traceback e |}
        | Ok _ => {| mapping_report := details; missing_guidance := guidance;
                     confirmed := false; ending := SysExit 2 |}
        end
      else {| mapping_report := details; missing_guidance := guidance;
              confirmed := true; ending := Returned |}
  end.

(** ** The guidance rules as an ordered table

    The same rules written as the list of (keywords, hint) pairs that the
    specification describes, to compare with [guidance_text]. *)
Definition GUIDANCE_RULES : list (list string * string) :=
  [ (["serial"; "sn"], HINT_SERIAL);
    (["manufacturer"; "mfr"; "maker"; "make"], HINT_MANUFACTURER);
    (["importer"], HINT_IMPORTER);
    (["model"], HINT_MODEL);
    (["caliber"; "gauge"], HINT_CALIBER);
    (["type"], HINT_TYPE);
    (["barrel"; "length"; "oal"], HINT_LENGTH);
    (["finish"; "color"], HINT_FINISH);
    (["upc"; "sku"], HINT_UPC);
    (["acq"; "acquisition"; "received"; "source"; "supplier"; "vendor"],
     HINT_ACQUISITION);
    (["dispo"; "dispose"; "transferee"; "customer"; "buyer"; "4473"],
     HINT_DISPOSITION);
    (["nics"; "ttn"; "poc"; "background"], HINT_BACKGROUND);
    (["ffl"; "license"], HINT_FFL);
    (["cost"; "price"; "amount"; "msrp"], HINT_VALUES) ].

(** The hints of the rules that match [key], in table order. *)
Definition matching_hints (key : string) : list string :=
  map snd (filter (fun rule => any_in key (fst rule)) GUIDANCE_RULES).

Definition SEPARATOR : string := " | ".

(** ** Notions used to state the results *)

(** [c] is the last column of [cols] with its normalized key. *)
Definition last_with_key (cols : list string) (c : string) : Prop :=
  exists before after,
    cols = before ++ c :: after /\ forall x, In x after -> norm x <> norm c.

(** [c] is the first column of [cols] with its normalized key. *)
Definition first_with_key (cols : list string) (c : string) : Prop :=
  exists before after,
    cols = before ++ c :: after /\ forall x, In x before -> norm x <> norm c.

(** The columns of [fb_cols] that are not in [seen], each at its first
    occurrence. *)
Fixpoint fresh_columns (seen fb_cols : list string) : list string :=
  match fb_cols with
  | [] => []
  | c :: rest =>
      if in_list c seen then fresh_columns seen rest
      else c :: fresh_columns (seen ++ [c]) rest
  end.

(** How a row of the trace comes about. *)
Inductive derived (atf_cols : list string) (fuzzy_cutoff : Q)
          (overrides : dict string string) : detail -> Prop :=
| by_override : forall c ref,
    In (c, ref) overrides -> in_list ref atf_cols = true ->
    derived atf_cols fuzzy_cutoff overrides (c, ref, OVERRIDE)
| by_override_norm : forall c ref src,
    In (c, ref) overrides -> in_list ref atf_cols = false ->
    Dict.get (atf_norm_map_of atf_cols) (norm ref) = Some src ->
    derived atf_cols fuzzy_cutoff overrides (c, src, OVERRIDE_NORMALIZED)
| by_override_not_found : forall c ref,
    In (c, ref) overrides -> in_list ref atf_cols = false ->
    Dict.get (atf_norm_map_of atf_cols) (norm ref) = None ->
    derived atf_cols fuzzy_cutoff overrides (c, "", OVERRIDE_NOT_FOUND)
| by_direct : forall c src,
    ~ In c (Dict.keys overrides) ->
    Dict.get (atf_norm_map_of atf_cols) (norm c) = Some src ->
    derived atf_cols fuzzy_cutoff overrides (c, src, DIRECT)
| by_alias : forall c src,
    ~ In c (Dict.keys overrides) ->
    Dict.get (atf_norm_map_of atf_cols) (norm c) = None ->
    alias_loop (atf_norm_map_of atf_cols) (norm c) ALIASES None = Some src ->
    Str.truthy src = true ->
    derived atf_cols fuzzy_cutoff overrides (c, src, ALIAS)
| by_fuzzy : forall c k rest src,
    ~ In c (Dict.keys overrides) ->
    Dict.get (atf_norm_map_of atf_cols) (norm c) = None ->
    hit_truthy (alias_loop (atf_norm_map_of atf_cols) (norm c) ALIASES None) = false ->
    Difflib.get_close_matches (norm c) (Dict.keys (atf_norm_map_of atf_cols))
                              fuzzy_cutoff = Ok (k :: rest) ->
    Dict.get (atf_norm_map_of atf_cols) k = Some src ->
    derived atf_cols fuzzy_cutoff overrides (c, src, FUZZY)
| by_missing : forall c,
    ~ In c (Dict.keys overrides) ->
    Dict.get (atf_norm_map_of atf_cols) (norm c) = None ->
    hit_truthy (alias_loop (atf_norm_map_of atf_cols) (norm c) ALIASES None) = false ->
    Difflib.get_close_matches (norm c) (Dict.keys (atf_norm_map_of atf_cols))
                              fuzzy_cutoff = Ok [] ->
    derived atf_cols fuzzy_cutoff overrides (c, "", MISSING).

(** The value [mapping] holds for the column of a row. *)
Definition mapped_value (r : detail) : option string :=
  match detail_kind r with
  | MISSING | OVERRIDE_NOT_FOUND => None
  | _ => Some (detail_src r)
  end.

(** The row that [record] appends. *)
Definition row_of (c : string) (src : option string) (kind : MatchKind) : detail :=
  (c, match src with Some s => s | None => "" end, kind).

(** The two results agree: same columns in the same order, no column
    twice, and [mapping] holds the value of each row. *)
Definition coherent (st : State) : Prop :=
  Dict.keys (fst st) = map detail_col (snd st)
  /\ NoDup (Dict.keys (fst st))
  /\ Forall (fun r => Dict.get (fst st) (detail_col r) = Some (mapped_value r))
            (snd st).

  
(** The kinds of row whose source is read from [atf_norm_map]. *)
Definition is_index_kind (k : MatchKind) : bool :=
  match k with
  | OVERRIDE_NORMALIZED | DIRECT | ALIAS | FUZZY => true
  | _ => false
  end.

(** The kinds of row that carry no source. *)
Definition is_unresolved_kind (k : MatchKind) : bool :=
  match k with
  | MISSING | OVERRIDE_NOT_FOUND => true
  | _ => false
  end.

(** [0.0 <= cutoff <= 1.0] *)
Definition in_range (cutoff : Q) : bool := Qle_bool 0 cutoff && Qle_bool cutoff 1.

(** The trace and [mapping] name the same columns. *)
Definition same_columns (st : State) : Prop :=
  forall k, In k (Dict.keys (fst st)) <-> In k (map detail_col (snd st)).

(** The guidance text the rule table gives for a column: the hints of the
    matching rules joined with the separator, or the generic hint alone. *)
Definition guidance_by_rules (col : string) : string :=
  Str.join SEPARATOR
           (match matching_hints (Str.lower col) with
            | [] => [HINT_GENERIC]
            | hints => hints
            end).

(** The hints that a prefix of the rule table gives for a key. *)
Definition hints_of (key : string) (rules : list (list string * string))
  : list string :=
  map snd (filter (fun rule => any_in key (fst rule)) rules).

(** The names of an alias group as the code scans them:
    [alias_list + [target]]. *)
Definition group_names (group : string * list string) : list string :=
  snd group ++ [fst group].

(** [fb_key == target or fb_key in map(norm, alias_list+[target])] *)
Definition group_matches (fb_key : string) (group : string * list string) : bool :=
  String.eqb fb_key (fst group) || in_list fb_key (map norm (group_names group)).

(** The stages before the fuzzy one leave the column unresolved. *)
Definition reaches_fuzzy (atf_cols : list string) (overrides : dict string string)
           (c : string) : Prop :=
  ~ In c (Dict.keys overrides)
  /\ Dict.get (atf_norm_map_of atf_cols) (norm c) = None
  /\ hit_truthy (alias_loop (atf_norm_map_of atf_cols) (norm c) ALIASES None) = false.

(** The extensions [read_overrides] knows, after lower-casing. *)
Definition SUPPORTED_SUFFIXES : list string := [".csv"; ".json"; ".yml"; ".yaml"].

(** A string with no white space at its start. *)
Definition no_leading_space (s : string) : Prop :=
  match s with
  | EmptyString => True
  | String c _ => Str.isspace c = false
  end.

(** ** The output sheet that [main] builds

    [out_df = pd.DataFrame(columns=fb_columns)] and the loop over
    [mapping.items()], at the level of the header: which columns the sheet
    "FastBoundImport" has, in which order, and what fills each of them.
    The header read from the template has no column twice. *)

(** What a column of [out_df] holds. *)
Inductive Fill : Type :=
| Untouched               (* created with the frame, never assigned *)
| Copied (src : string)   (* out_df[fb_col] = atf_df[src] *)
| Blank.                  (* out_df[fb_col] = np.nan *)

(** [if src and src in atf_df.columns: ... else: ...] *)
Definition fill_for (atf_columns : list string) (src : option string) : Fill :=
  match src with
  | Some s => if Str.truthy s && in_list s atf_columns then Copied s else Blank
  | None => Blank
  end.

(** [for fb_col, src in mapping.items(): out_df[fb_col] = ...] *)
Definition out_frame (atf_columns fb_columns : list string) (mapping : Mapping)
  : dict string Fill :=
  fold_left (fun out item => Dict.set out (fst item) (fill_for atf_columns (snd item)))
            mapping
            (Dict.comprehension (fun c => c) (fun _ => Untouched) fb_columns).

(** The fill that the trace row of a column announces. *)
Definition fill_of_row (r : detail) : Fill :=
  if is_unresolved_kind (detail_kind r) || negb (Str.truthy (detail_src r))
  then Blank else Copied (detail_src r).

(** ** Notions about matching blocks *)

(** [(i, j, k)] is a block of [a] and [b]: [a[i:i+k] == b[j:j+k]]. *)
Definition valid_block (a b : list ascii) (m : Difflib.block) : Prop :=
  exists a1 b1 w a2 b2,
    a = a1 ++ w ++ a2 /\ b = b1 ++ w ++ b2
    /\ length a1 = fst (fst m) /\ length b1 = snd (fst m) /\ length w = snd m.

(** [p] and [q] end with the same [k] elements. *)
Definition common_suffix (k : nat) (p q : list ascii) : Prop :=
  exists p0 q0 w, p = p0 ++ w /\ q = q0 ++ w /\ length w = k.





(** ** Normalizer facts *)

Lemma lower_char_idem : forall c, Str.lower_char (Str.lower_char c) = Str.lower_char c.
Proof.
  intros [[] [] [] [] [] [] [] []]; vm_compute; reflexivity.
Qed.

Lemma isalnum_lower_fixed :
  forall c, Str.isalnum (Str.lower_char c) = true ->
            Str.lower_char (Str.lower_char c) = Str.lower_char c.
Proof. intros c _. apply lower_char_idem. Qed.

Lemma lower_idem : forall s, Str.lower (Str.lower s) = Str.lower s.
Proof.
  induction s as [|c s IH]; simpl; [reflexivity|].
  now rewrite lower_char_idem, IH.
Qed.

Definition is_lower (c : ascii) : Prop := Str.lower_char c = c.

Lemma join_alnum_chars :
  forall s, list_ascii_of_string (Str.join_alnum s)
            = filter Str.isalnum (list_ascii_of_string s).
Proof.
  induction s as [|c s IH]; simpl; [reflexivity|].
  destruct (Str.isalnum c); simpl; now rewrite IH.
Qed.

Lemma lower_chars :
  forall s, list_ascii_of_string (Str.lower s)
            = map Str.lower_char (list_ascii_of_string s).
Proof.
  induction s as [|c s IH]; simpl; [reflexivity|]. now rewrite IH.
Qed.

Lemma lower_fixed_string :
  forall s, Forall is_lower (list_ascii_of_string s) -> Str.lower s = s.
Proof.
  induction s as [|c s IH]; simpl; intros H; [reflexivity|].
  inversion H; subst. unfold is_lower in *. now rewrite H2, IH.
Qed.

Lemma join_alnum_fixed_string :
  forall s, Forall (fun c => Str.isalnum c = true) (list_ascii_of_string s) ->
            Str.join_alnum s = s.
Proof.
  induction s as [|c s IH]; simpl; intros H; [reflexivity|].
  inversion H; subst. now rewrite H2, IH.
Qed.

Lemma norm_chars_alnum :
  forall s, Forall (fun c => Str.isalnum c = true) (list_ascii_of_string (norm s)).
Proof.
  intros s. unfold norm. rewrite join_alnum_chars.
  apply Forall_forall. intros c Hc. now apply filter_In in Hc.
Qed.

Lemma norm_chars_lower :
  forall s, Forall is_lower (list_ascii_of_string (norm s)).
Proof.
  intros s. unfold norm. rewrite join_alnum_chars, lower_chars.
  apply Forall_forall. intros c Hc. apply filter_In in Hc as [Hc _].
  apply in_map_iff in Hc as [d [<- _]]. apply lower_char_idem.
Qed.

Lemma norm_idem : forall s, norm (norm s) = norm s.
Proof.
  intros s. unfold norm at 1.
  rewrite (lower_fixed_string (norm s) (norm_chars_lower s)).
  apply join_alnum_fixed_string, norm_chars_alnum.
Qed.

(** C5. [norm] is total; it yields the lower-cased characters of its input
    that are alphanumeric, in their order (so the empty string and a string
    of punctuation give the empty key), it is idempotent, and lower-casing
    the input first does not change the key. *)
Theorem norm_total_idempotent_case_insensitive :
  forall s : string,
    list_ascii_of_string (norm s)
      = filter Str.isalnum (map Str.lower_char (list_ascii_of_string s))
    /\ Forall (fun c => Str.isalnum c = true /\ Str.lower_char c = c)
              (list_ascii_of_string (norm s))
    /\ norm "" = ""
    /\ norm "#/- (.)" = ""
    /\ norm (norm s) = norm s
    /\ norm s = norm (Str.lower s).
Proof.
  intros s. repeat split.
  - unfold norm. now rewrite join_alnum_chars, lower_chars.
  - apply Forall_forall. intros c Hc. split.
    + exact (proj1 (Forall_forall _ _) (norm_chars_alnum s) c Hc).
    + exact (proj1 (Forall_forall _ _) (norm_chars_lower s) c Hc).
  - apply norm_idem.
  - unfold norm. now rewrite lower_idem.
Qed.


(** ** Dictionary facts *)

Section DictFacts.
Context {K V : Type} `{EqKey K}.
Implicit Types (d : dict K V) (k : K) (v : V).

Lemma keqb_refl k : keqb k k = true.
Proof. destruct (keqb_spec k k); congruence. Qed.

Lemma keqb_neq k k' : k <> k' -> keqb k k' = false.
Proof. intros Hne. destruct (keqb_spec k k'); congruence. Qed.

Lemma get_set_same d k v : Dict.get (Dict.set d k v) k = Some v.
Proof.
  induction d as [|[k' v'] d IH]; simpl.
  - now rewrite keqb_refl.
  - destruct (keqb_spec k k') as [->|Hne]; simpl.
    + now rewrite keqb_refl.
    + now rewrite (keqb_neq Hne).
Qed.

Lemma get_set_other d k k' v :
  k' <> k -> Dict.get (Dict.set d k v) k' = Dict.get d k'.
Proof.
  intros Hne. induction d as [|[k0 v0] d IH]; simpl.
  - now rewrite (keqb_neq Hne).
  - destruct (keqb_spec k k0) as [->|Hk]; simpl.
    + now rewrite (keqb_neq Hne).
    + now rewrite IH.
Qed.

Lemma get_in_keys d k : Dict.get d k <> None <-> In k (Dict.keys d).
Proof.
  induction d as [|[k' v'] d IH]; simpl.
  - tauto.
  - destruct (keqb_spec k k') as [->|Hne].
    + split; [auto | discriminate].
    + rewrite IH. split; [auto | intros [Heq|Hin]; [congruence | exact Hin]].
Qed.

Lemma mem_in_keys d k : Dict.mem d k = true <-> In k (Dict.keys d).
Proof.
  rewrite <- get_in_keys. unfold Dict.mem.
  destruct (Dict.get d k); split; congruence.
Qed.

Lemma mem_false_not_in d k : Dict.mem d k = false <-> ~ In k (Dict.keys d).
Proof.
  rewrite <- mem_in_keys. destruct (Dict.mem d k); split; congruence.
Qed.

Lemma get_none_not_in d k : Dict.get d k = None <-> ~ In k (Dict.keys d).
Proof.
  rewrite <- get_in_keys. destruct (Dict.get d k); split; try congruence.
  intros Hn. exfalso. apply Hn. discriminate.
Qed.

Lemma keys_set_fresh d k v :
  ~ In k (Dict.keys d) -> Dict.keys (Dict.set d k v) = Dict.keys d ++ [k].
Proof.
  induction d as [|[k' v'] d IH]; simpl; intros Hnin; [reflexivity|].
  destruct (keqb_spec k k') as [->|Hne]; [tauto|].
  simpl. f_equal. apply IH. tauto.
Qed.

Lemma keys_set_present d k v :
  In k (Dict.keys d) -> Dict.keys (Dict.set d k v) = Dict.keys d.
Proof.
  induction d as [|[k' v'] d IH]; simpl; intros Hin; [tauto|].
  destruct (keqb_spec k k') as [->|Hne]; [reflexivity|].
  simpl. f_equal. apply IH. destruct Hin; congruence.
Qed.

Lemma in_keys_set d k v k' :
  In k' (Dict.keys (Dict.set d k v)) <-> k' = k \/ In k' (Dict.keys d).
Proof.
  rewrite <- !get_in_keys.
  destruct (keqb_spec k' k) as [->|Hne].
  - rewrite get_set_same. split; [auto | discriminate].
  - rewrite (get_set_other d v Hne). tauto.
Qed.

Lemma keys_set_nodup d k v :
  NoDup (Dict.keys d) -> NoDup (Dict.keys (Dict.set d k v)).
Proof.
  intros Hnd.
  destruct (in_dec (fun x y => reflect_dec _ _ (keqb_spec x y)) k (Dict.keys d))
    as [Hin|Hnin].
  - now rewrite keys_set_present.
  - rewrite keys_set_fresh by assumption.
    apply NoDup_app; [assumption | constructor; [tauto | constructor] | ].
    intros x Hx [<-|[]]. tauto.
Qed.

Lemma get_in d k v : Dict.get d k = Some v -> In (k, v) d.
Proof.
  induction d as [|[k' v'] d IH]; simpl; [discriminate|].
  destruct (keqb_spec k k') as [->|Hne]; intros Hg.
  - left. congruence.
  - right. auto.
Qed.

Lemma comprehension_snoc {A} (key : A -> K) (value : A -> V) xs x :
  Dict.comprehension key value (xs ++ [x])
  = Dict.set (Dict.comprehension key value xs) (key x) (value x).
Proof. unfold Dict.comprehension. now rewrite fold_left_app. Qed.

Lemma comprehension_keys_nodup {A} (key : A -> K) (value : A -> V) xs :
  NoDup (Dict.keys (Dict.comprehension key value xs)).
Proof.
  induction xs as [|x xs IH] using rev_ind.
  - constructor.
  - rewrite comprehension_snoc. now apply keys_set_nodup.
Qed.
End DictFacts.

(** The index keeps, under each key, the last column that has it. *)
Lemma atf_norm_map_last :
  forall atf_cols k c,
    Dict.get (atf_norm_map_of atf_cols) k = Some c ->
    norm c = k /\ last_with_key atf_cols c.
Proof.
  unfold atf_norm_map_of.
  induction atf_cols as [|x xs IH] using rev_ind; intros k c Hget.
  - discriminate.
  - rewrite comprehension_snoc in Hget.
    destruct (String.eqb_spec k (norm x)) as [->|Hne].
    + rewrite get_set_same in Hget. injection Hget as <-.
      split; [reflexivity|]. exists xs, []. split; [reflexivity | intros ? []].
    + rewrite get_set_other in Hget by assumption.
      destruct (IH _ _ Hget) as [Hk (before & after & -> & Hafter)].
      split; [assumption|]. exists before, (after ++ [x]). split.
      * now rewrite <- app_assoc.
      * intros y Hy. apply in_app_or in Hy as [Hy|[<-|[]]]; [auto | congruence].
Qed.

Lemma last_with_key_in : forall cols c, last_with_key cols c -> In c cols.
Proof.
  intros cols c (before & after & -> & _). apply in_or_app. right. now left.
Qed.

Lemma atf_norm_map_in :
  forall atf_cols k c,
    Dict.get (atf_norm_map_of atf_cols) k = Some c -> In c atf_cols.
Proof.
  intros ? ? ? Hg. now apply last_with_key_in, (atf_norm_map_last _ _ Hg).
Qed.

Lemma in_list_true : forall x xs, in_list x xs = true <-> In x xs.
Proof.
  intros x xs. unfold in_list. rewrite existsb_exists. split.
  - intros [y [Hy Heq]]. apply String.eqb_eq in Heq. now subst.
  - intros Hin. exists x. split; [assumption | apply String.eqb_refl].
Qed.

Lemma in_list_false : forall x xs, in_list x xs = false <-> ~ In x xs.
Proof.
  intros x xs. rewrite <- in_list_true. destruct (in_list x xs); split; congruence.
Qed.

(** ** How [build_mapping] fills its two results *)

Lemma record_eq :
  forall m d c src kind,
    record (m, d) c src kind = (Dict.set m c src, d ++ [row_of c src kind]).
Proof. reflexivity. Qed.

Section Passes.
Variables (atf_cols : list string) (fuzzy_cutoff : Q)
          (overrides : dict string string).

Local Notation "'idx'" := (atf_norm_map_of atf_cols).
Local Notation "'derived''" := (derived atf_cols fuzzy_cutoff overrides).

Lemma apply_override_spec :
  forall (st : State) c ref,
    In (c, ref) overrides ->
    exists src kind,
      apply_override atf_cols idx st (c, ref) = record st c src kind
      /\ derived' (row_of c src kind)
      /\ mapped_value (row_of c src kind) = src
      /\ is_override_kind kind = true.
Proof.
  intros st c ref Hin. unfold apply_override.
  destruct (in_list ref atf_cols) eqn:Hlit.
  - exists (Some ref), OVERRIDE. repeat split. now apply by_override.
  - destruct (Dict.get idx (norm ref)) as [src|] eqn:Hget.
    + exists (Some src), OVERRIDE_NORMALIZED. repeat split.
      now apply by_override_norm with (ref := ref).
    + exists None, OVERRIDE_NOT_FOUND. repeat split.
      now apply by_override_not_found with (ref := ref).
Qed.

Lemma hit_truthy_some :
  forall hit, hit_truthy hit = true -> exists s, hit = Some s /\ Str.truthy s = true.
Proof. intros [s|]; simpl; [eauto | discriminate]. Qed.

Lemma resolve_column_spec :
  forall (st st' : State) c,
    (forall k, In k (Dict.keys overrides) -> In k (Dict.keys (fst st))) ->
    resolve_column idx fuzzy_cutoff st c = Ok st' ->
    (Dict.mem (fst st) c = true /\ st' = st)
    \/ (Dict.mem (fst st) c = false
        /\ exists src kind,
             st' = record st c src kind
             /\ derived' (row_of c src kind)
             /\ mapped_value (row_of c src kind) = src
             /\ is_override_kind kind = false).
Proof.
  intros st st' c Hsub. unfold resolve_column.
  remember (alias_loop idx (norm c) ALIASES None) as hit eqn:Hhit.
  destruct (Dict.mem (fst st) c) eqn:Hmem.
  - intros Hres. left. split; [reflexivity | congruence].
  - assert (Hfresh : ~ In c (Dict.keys overrides)).
    { intros Hin. apply Hsub in Hin. apply mem_in_keys in Hin. congruence. }
    intros Hres. right. split; [reflexivity|].
    destruct (Dict.get idx (norm c)) as [src|] eqn:Hdirect.
    + exists (Some src), DIRECT. repeat split; [congruence|].
      now apply by_direct.
    + destruct (hit_truthy hit) eqn:Htruthy.
      * destruct (hit_truthy_some _ Htruthy) as [s [Hs Hts]].
        exists (Some s), ALIAS. repeat split; [congruence|].
        apply by_alias; congruence.
      * unfold fuzzy_stage, bind in Hres.
        destruct (Difflib.get_close_matches (norm c) (Dict.keys idx) fuzzy_cutoff)
          as [[|k rest]|e] eqn:Hgcm; try discriminate.
        -- exists None, MISSING. repeat split; [congruence|].
           apply by_missing; congruence.
        -- destruct (Dict.get idx k) as [src|] eqn:Hk; try discriminate.
           exists (Some src), FUZZY. repeat split; [congruence|].
           apply by_fuzzy with (k := k) (rest := rest); congruence.
Qed.

Lemma record_coherent :
  forall (st : State) c src kind,
    coherent st -> ~ In c (Dict.keys (fst st)) ->
    mapped_value (row_of c src kind) = src ->
    coherent (record st c src kind).
Proof.
  intros [m d] c src kind (Hkeys & Hnd & Hvals) Hfresh Hval.
  rewrite record_eq. simpl in *. repeat split; simpl.
  - rewrite keys_set_fresh by assumption. rewrite map_app. simpl.
    now rewrite Hkeys.
  - now apply keys_set_nodup.
  - apply Forall_app. split.
    + rewrite Forall_forall in *. intros r Hr.
      rewrite get_set_other; [now apply Hvals|].
      intros Heq. apply Hfresh. rewrite Hkeys, <- Heq.
      now apply in_map.
    + constructor; [|constructor]. simpl.
      unfold detail_col at 1. simpl. rewrite get_set_same. now rewrite Hval.
Qed.

Lemma record_rows :
  forall (st : State) c src kind,
    Forall derived' (snd st) -> derived' (row_of c src kind) ->
    Forall derived' (snd (record st c src kind)).
Proof.
  intros [m d] c src kind Hd Hr. rewrite record_eq. simpl in *.
  apply Forall_app. split; [assumption | now constructor].
Qed.

Lemma record_keys :
  forall (st : State) c src kind k,
    In k (Dict.keys (fst (record st c src kind)))
    <-> k = c \/ In k (Dict.keys (fst st)).
Proof. intros [m d] c src kind k. rewrite record_eq. apply in_keys_set. Qed.

Lemma record_cols :
  forall (st : State) c src kind,
    map detail_col (snd (record st c src kind)) = map detail_col (snd st) ++ [c].
Proof. intros [m d] c src kind. rewrite record_eq. simpl. now rewrite map_app. Qed.
End Passes.

(** ** The two passes *)

Section Loops.
Variables (atf_cols : list string) (fuzzy_cutoff : Q)
          (overrides : dict string string).

Local Notation "'idx'" := (atf_norm_map_of atf_cols).
Local Notation "'derived''" := (derived atf_cols fuzzy_cutoff overrides).
Local Notation "'pass1'" := (fold_left (apply_override atf_cols idx)).
Local Notation "'pass2'" := (for_each (resolve_column idx fuzzy_cutoff)).

Lemma pass1_rows :
  forall items (st : State),
    incl items overrides -> Forall derived' (snd st) ->
    Forall derived' (snd (pass1 items st)).
Proof.
  induction items as [|[c ref] items IH]; intros st Hincl Hrows; cbn [fold_left].
  - assumption.
  - assert (Hin : In (c, ref) overrides) by (apply Hincl; now left).
    destruct (apply_override_spec atf_cols fuzzy_cutoff overrides st c ref Hin)
      as (src & kind & -> & Hder & _ & _).
    apply IH.
    + intros x Hx. apply Hincl. now right.
    + now apply record_rows.
Qed.

Lemma pass1_keys :
  forall items (st : State) k,
    incl items overrides ->
    (In k (Dict.keys (fst (pass1 items st)))
     <-> In k (Dict.keys (fst st)) \/ In k (map fst items)).
Proof.
  induction items as [|[c ref] items IH]; intros st k Hincl; cbn [fold_left map].
  - simpl. tauto.
  - assert (Hin : In (c, ref) overrides) by (apply Hincl; now left).
    destruct (apply_override_spec atf_cols fuzzy_cutoff overrides st c ref Hin)
      as (src & kind & -> & _).
    rewrite IH by (intros x Hx; apply Hincl; now right).
    rewrite record_keys. simpl. intuition congruence.
Qed.

Lemma pass1_cols :
  forall items (st : State),
    incl items overrides ->
    map detail_col (snd (pass1 items st))
    = map detail_col (snd st) ++ map fst items.
Proof.
  induction items as [|[c ref] items IH]; intros st Hincl; cbn [fold_left map].
  - now rewrite app_nil_r.
  - assert (Hin : In (c, ref) overrides) by (apply Hincl; now left).
    destruct (apply_override_spec atf_cols fuzzy_cutoff overrides st c ref Hin)
      as (src & kind & -> & _).
    rewrite IH by (intros x Hx; apply Hincl; now right).
    rewrite record_cols, <- app_assoc. reflexivity.
Qed.

Lemma pass1_coherent :
  forall items (st : State),
    incl items overrides -> NoDup (map fst items) ->
    (forall k, In k (map fst items) -> ~ In k (Dict.keys (fst st))) ->
    coherent st -> coherent (pass1 items st).
Proof.
  induction items as [|[c ref] items IH]; intros st Hincl Hnd Hfresh Hco; cbn [fold_left].
  - assumption.
  - assert (Hin : In (c, ref) overrides) by (apply Hincl; now left).
    destruct (apply_override_spec atf_cols fuzzy_cutoff overrides st c ref Hin)
      as (src & kind & -> & _ & Hval & _).
    simpl in Hnd. inversion Hnd as [|? ? Hc Hnd']; subst.
    apply IH.
    + intros x Hx. apply Hincl. now right.
    + assumption.
    + intros k Hk. rewrite record_keys. intros [->|Hk']; [tauto|].
      apply (Hfresh k); [now right | assumption].
    + apply record_coherent; [assumption | apply Hfresh; now left | assumption].
Qed.

Lemma pass2_rows :
  forall fb_cols (st st' : State),
    (forall k, In k (Dict.keys overrides) -> In k (Dict.keys (fst st))) ->
    pass2 fb_cols st = Ok st' ->
    Forall derived' (snd st) -> Forall derived' (snd st').
Proof.
  induction fb_cols as [|c fb_cols IH]; intros st st' Hsub Hrun Hrows; cbn [for_each] in Hrun.
  - now injection Hrun as <-.
  - unfold bind in Hrun.
    destruct (resolve_column idx fuzzy_cutoff st c) as [st1|e] eqn:Hstep;
      [|discriminate].
    destruct (resolve_column_spec atf_cols fuzzy_cutoff overrides st c Hsub Hstep)
      as [[_ ->]|(_ & src & kind & -> & Hder & _)].
    + now apply (IH st st').
    + apply (IH (record st c src kind) st'); [|assumption|now apply record_rows].
      intros k Hk. rewrite record_keys. right. now apply Hsub.
Qed.

Lemma pass2_coherent :
  forall fb_cols (st st' : State),
    (forall k, In k (Dict.keys overrides) -> In k (Dict.keys (fst st))) ->
    pass2 fb_cols st = Ok st' ->
    coherent st -> coherent st'.
Proof.
  induction fb_cols as [|c fb_cols IH]; intros st st' Hsub Hrun Hco; cbn [for_each] in Hrun.
  - now injection Hrun as <-.
  - unfold bind in Hrun.
    destruct (resolve_column idx fuzzy_cutoff st c) as [st1|e] eqn:Hstep;
      [|discriminate].
    destruct (resolve_column_spec atf_cols fuzzy_cutoff overrides st c Hsub Hstep)
      as [[_ ->]|(Hmem & src & kind & -> & _ & Hval & _)].
    + now apply (IH st st').
    + apply (IH (record st c src kind) st'); [|assumption|].
      * intros k Hk. rewrite record_keys. right. now apply Hsub.
      * apply record_coherent; [assumption | now apply mem_false_not_in | assumption].
Qed.

Lemma pass2_cols :
  forall fb_cols (st st' : State),
    (forall k, In k (Dict.keys overrides) -> In k (Dict.keys (fst st))) ->
    pass2 fb_cols st = Ok st' ->
    map detail_col (snd st')
    = map detail_col (snd st) ++ fresh_columns (Dict.keys (fst st)) fb_cols.
Proof.
  induction fb_cols as [|c fb_cols IH]; intros st st' Hsub Hrun; cbn [for_each] in Hrun.
  - injection Hrun as <-. cbn [fresh_columns]. now rewrite app_nil_r.
  - unfold bind in Hrun.
    destruct (resolve_column idx fuzzy_cutoff st c) as [st1|e] eqn:Hstep;
      [|discriminate].
    destruct (resolve_column_spec atf_cols fuzzy_cutoff overrides st c Hsub Hstep)
      as [[Hmem ->]|(Hmem & src & kind & -> & _)]; cbn [fresh_columns].
    + apply mem_in_keys, in_list_true in Hmem. rewrite Hmem. now apply IH.
    + pose proof Hmem as Hnin. apply mem_false_not_in in Hnin.
      pose proof Hnin as Hl. apply in_list_false in Hl. rewrite Hl.
      rewrite (IH (record st c src kind) st'); [|intros k Hk; rewrite record_keys; right; now apply Hsub
                           |assumption].
      rewrite record_cols, <- app_assoc. simpl. do 2 f_equal.
      destruct st as [m d]. rewrite record_eq. simpl.
      now rewrite keys_set_fresh.
Qed.
End Loops.

(** Every row of the trace is derived by one of the seven rules. *)
Lemma build_mapping_rows :
  forall atf_cols fb_cols overrides fuzzy_cutoff mapping details,
    build_mapping atf_cols fb_cols overrides fuzzy_cutoff = Ok (mapping, details) ->
    Forall (derived atf_cols fuzzy_cutoff overrides) details.
Proof.
  intros atf fb ov cutoff m d Hrun. unfold build_mapping in Hrun.
  change d with (snd (m, d)).
  eapply pass2_rows; [|exact Hrun|].
  - intros k Hk.
    apply (proj2 (@pass1_keys atf cutoff ov ov ([], []) k (incl_refl _))).
    now right.
  - apply pass1_rows; [apply incl_refl | constructor].
Qed.

(** With each override key held once, the two results are coherent and the
    columns of the trace are the override keys followed by the other
    target columns. *)
Lemma build_mapping_shape :
  forall atf_cols fb_cols overrides fuzzy_cutoff mapping details,
    well_formed overrides ->
    build_mapping atf_cols fb_cols overrides fuzzy_cutoff = Ok (mapping, details) ->
    coherent (mapping, details)
    /\ map detail_col details
       = Dict.keys overrides ++ fresh_columns (Dict.keys overrides) fb_cols.
Proof.
  intros atf fb ov cutoff m d Hwf Hrun. unfold build_mapping in Hrun.
  set (st1 := fold_left (apply_override atf (atf_norm_map_of atf)) ov ([], [])) in *.
  assert (Hsub : forall k, In k (Dict.keys ov) -> In k (Dict.keys (fst st1))).
  { intros k Hk.
    apply (proj2 (@pass1_keys atf cutoff ov ov ([], []) k (incl_refl _))).
    now right. }
  assert (Hco1 : coherent st1).
  { apply (pass1_coherent atf cutoff (overrides := ov));
      [apply incl_refl | exact Hwf | intros k _ [] | ].
    repeat split; simpl; constructor. }
  assert (Hcols1 : map detail_col (snd st1) = Dict.keys ov).
  { unfold st1. rewrite (pass1_cols atf cutoff (overrides := ov)) by apply incl_refl.
    reflexivity. }
  split.
  - eapply pass2_coherent; [exact Hsub | exact Hrun | exact Hco1].
  - change d with (snd (m, d)).
    rewrite (pass2_cols atf cutoff ov fb st1 Hsub Hrun).
    destruct Hco1 as (Hk & _). now rewrite Hk, Hcols1.
Qed.

(** ** Consequences for single rows *)

Lemma first_alias_from_index :
  forall idx names hit c,
    first_alias idx names hit = Some c ->
    hit = Some c \/ exists k, Dict.get idx k = Some c.
Proof.
  induction names as [|a names IH]; simpl; intros hit c Hf.
  - now left.
  - destruct (Dict.get idx (norm a)) as [c'|] eqn:Hget.
    + injection Hf as <-. right. eauto.
    + now apply IH.
Qed.

Lemma alias_loop_from_index :
  forall idx fb_key groups hit c,
    alias_loop idx fb_key groups hit = Some c ->
    hit = Some c \/ exists k, Dict.get idx k = Some c.
Proof.
  induction groups as [|[target alias_list] groups IH]; simpl; intros hit c Hl.
  - now left.
  - match type of Hl with
    | (if hit_truthy ?h then _ else _) = _ => remember h as hit' eqn:Hhit'
    end.
    assert (Hfrom : hit' = Some c -> hit = Some c \/ exists k, Dict.get idx k = Some c).
    { intros Heq. subst hit'.
      destruct (String.eqb fb_key target
                || in_list fb_key (map norm (alias_list ++ [target]))).
      - now apply first_alias_from_index in Heq.
      - now left. }
    destruct (hit_truthy hit').
    + auto.
    + apply IH in Hl as [Hl|Hl]; auto.
Qed.

Lemma derived_index_kind :
  forall atf_cols cutoff overrides r,
    derived atf_cols cutoff overrides r ->
    is_index_kind (detail_kind r) = true ->
    exists k, Dict.get (atf_norm_map_of atf_cols) k = Some (detail_src r).
Proof.
  intros atf cutoff ov r Hd Hk.
  destruct Hd; simpl in Hk; try discriminate; unfold detail_src; simpl; eauto.
  apply alias_loop_from_index in H1 as [H1|H1]; [discriminate | assumption].
Qed.

Lemma derived_source :
  forall atf_cols cutoff overrides r,
    derived atf_cols cutoff overrides r ->
    if is_unresolved_kind (detail_kind r) then detail_src r = ""
    else In (detail_src r) atf_cols.
Proof.
  intros atf cutoff ov r Hd.
  destruct (is_unresolved_kind (detail_kind r)) eqn:Hu.
  - destruct Hd; simpl in Hu; try discriminate; reflexivity.
  - destruct (is_index_kind (detail_kind r)) eqn:Hi.
    + destruct (derived_index_kind Hd Hi) as [k Hk].
      now apply atf_norm_map_in in Hk.
    + destruct Hd; simpl in Hu, Hi; try discriminate.
      unfold detail_src. simpl. now apply in_list_true.
Qed.

Lemma derived_override_kind :
  forall atf_cols cutoff overrides r,
    derived atf_cols cutoff overrides r ->
    In (detail_col r) (Dict.keys overrides) ->
    is_override_kind (detail_kind r) = true.
Proof.
  intros atf cutoff ov r Hd Hin.
  destruct Hd; try reflexivity; unfold detail_col in Hin; simpl in Hin; tauto.
Qed.

Lemma nodup_map_inj :
  forall (A B : Type) (f : A -> B) (l : list A) x y,
    NoDup (map f l) -> In x l -> In y l -> f x = f y -> x = y.
Proof.
  induction l as [|a l IH]; simpl; intros x y Hnd Hx Hy Hf; [tauto|].
  inversion Hnd as [|? ? Hnin Hnd']; subst.
  destruct Hx as [<-|Hx], Hy as [<-|Hy]; try reflexivity.
  - exfalso. apply Hnin. rewrite Hf. now apply in_map.
  - exfalso. apply Hnin. rewrite <- Hf. now apply in_map.
  - now apply IH.
Qed.

Lemma well_formed_value :
  forall (ov : dict string string) c ref ref',
    well_formed ov -> In (c, ref) ov -> In (c, ref') ov -> ref = ref'.
Proof.
  intros ov c ref ref' Hwf H1 H2.
  assert (Heq : (c, ref) = (c, ref')) by (eapply nodup_map_inj; eauto).
  congruence.
Qed.

Lemma fresh_columns_in :
  forall fb seen c,
    In c (seen ++ fresh_columns seen fb) <-> In c seen \/ In c fb.
Proof.
  induction fb as [|x fb IH]; intros seen c; simpl.
  - rewrite app_nil_r. tauto.
  - destruct (in_list x seen) eqn:Hx.
    + rewrite IH. apply in_list_true in Hx. intuition congruence.
    + change (x :: fresh_columns (seen ++ [x]) fb)
        with ([x] ++ fresh_columns (seen ++ [x]) fb).
      rewrite app_assoc, IH, in_app_iff. simpl. intuition congruence.
Qed.

Lemma fresh_columns_all :
  forall fb seen,
    NoDup fb -> (forall c, In c fb -> ~ In c seen) -> fresh_columns seen fb = fb.
Proof.
  induction fb as [|x fb IH]; intros seen Hnd Hfresh; simpl; [reflexivity|].
  inversion Hnd as [|? ? Hx Hnd']; subst.
  assert (Hl : in_list x seen = false) by (apply in_list_false, Hfresh; now left).
  rewrite Hl. f_equal. apply IH; [assumption|].
  intros c Hc Hin. apply in_app_or in Hin as [Hin|[<-|[]]].
  - apply (Hfresh c); [now right | assumption].
  - contradiction.
Qed.

(** Decides [well_formed] and [NoDup] on a list that is written out. *)
Ltac nodup_explicit :=
  unfold well_formed; simpl;
  repeat (apply NoDup_cons; [simpl; intuition discriminate|]);
  apply NoDup_nil.

(** ** The trace and the target columns *)

(** C1, as stated, fails: with the targets Manufacturer, Model and the
    overrides Model, Extra the trace has three rows for two target columns,
    and its columns are Model, Extra, Manufacturer. *)
Lemma trace_follows_overrides_first :
  match build_mapping ["Maker"; "Model"] ["Manufacturer"; "Model"]
                      [("Model", "Model"); ("Extra", "Nope")] (84 # 100) with
  | Ok (_, details) =>
      length details = 3
      /\ length ["Manufacturer"; "Model"] = 2
      /\ map detail_col details = ["Model"; "Extra"; "Manufacturer"]
  | Raise _ => False
  end.
Proof. vm_compute. repeat split. Qed.

(** C1, amended.  The trace holds one row per override key, in the order of
    the overrides, followed by one row per target column that is not an
    override key, in target-column order, a repeated target column being
    entered at its first occurrence only; [mapping] has the same columns in
    the same order; every target column has exactly one row; and without
    overrides and with distinct target columns the trace has one row per
    target column, in target-column order. *)
Theorem trace_columns :
  forall atf_cols fb_cols overrides fuzzy_cutoff mapping details,
    well_formed overrides ->
    build_mapping atf_cols fb_cols overrides fuzzy_cutoff = Ok (mapping, details) ->
    map detail_col details
    = Dict.keys overrides ++ fresh_columns (Dict.keys overrides) fb_cols
    /\ Dict.keys mapping = map detail_col details
    /\ (forall c, In c fb_cols ->
                  count_occ string_dec (map detail_col details) c = 1)
    /\ (overrides = [] -> NoDup fb_cols ->
        map detail_col details = fb_cols /\ length details = length fb_cols).
Proof.
  intros atf fb ov cutoff m d Hwf Hrun.
  destruct (build_mapping_shape _ _ _ Hwf Hrun) as [(Hkeys & Hnd & _) Hcols].
  simpl in Hkeys, Hnd. split; [|split; [|split]].
  - exact Hcols.
  - exact Hkeys.
  - intros c Hc. rewrite Hkeys in Hnd.
    apply NoDup_count_occ'; [assumption|].
    rewrite Hcols. apply fresh_columns_in. now right.
  - intros -> Hfb.
    assert (Heq : map detail_col d = fb).
    { rewrite Hcols. simpl. apply fresh_columns_all; [assumption | intros c _ []]. }
    split; [exact Heq|]. now rewrite <- Heq, length_map.
Qed.

Lemma trace_columns_witness :
  map detail_col
      [("Manufacturer", "Maker", ALIAS); ("SKU", "Item#", ALIAS);
       ("Unmapped Field", "", MISSING)]
  = Dict.keys (@nil (string * string))
    ++ fresh_columns (Dict.keys (@nil (string * string)))
                     ["Manufacturer"; "SKU"; "Unmapped Field"]
  /\ Dict.keys [("Manufacturer", Some "Maker"); ("SKU", Some "Item#");
                ("Unmapped Field", None)]
     = map detail_col
           [("Manufacturer", "Maker", ALIAS); ("SKU", "Item#", ALIAS);
            ("Unmapped Field", "", MISSING)]
  /\ (forall c, In c ["Manufacturer"; "SKU"; "Unmapped Field"] ->
        count_occ string_dec
          (map detail_col
               [("Manufacturer", "Maker", ALIAS); ("SKU", "Item#", ALIAS);
                ("Unmapped Field", "", MISSING)]) c = 1)
  /\ (@nil (string * string) = [] ->
      NoDup ["Manufacturer"; "SKU"; "Unmapped Field"] ->
      map detail_col
          [("Manufacturer", "Maker", ALIAS); ("SKU", "Item#", ALIAS);
           ("Unmapped Field", "", MISSING)]
      = ["Manufacturer"; "SKU"; "Unmapped Field"]
      /\ length [("Manufacturer", "Maker", ALIAS); ("SKU", "Item#", ALIAS);
                 ("Unmapped Field", "", MISSING)]
         = length ["Manufacturer"; "SKU"; "Unmapped Field"]).
Proof.
  apply (@trace_columns ["Maker"; "Item#"; "Other"]
                        ["Manufacturer"; "SKU"; "Unmapped Field"]
                        [] (84 # 100)).
  - constructor.
  - vm_compute. reflexivity.
Defined.

(** ** Overrides are final *)

(** C2.  A row whose column is an override key has one of the three
    override kinds; each override entry has exactly one row, and when its
    reference is found neither literally nor in the index that row is
    OVERRIDE_NOT_FOUND with no source and [mapping] holds [None]: the
    direct, alias and fuzzy stages do not run for it.  In the scenario of
    the specification Manufacturer resolves to Brand by OVERRIDE. *)
Theorem override_is_final :
  forall atf_cols fb_cols overrides fuzzy_cutoff mapping details,
    well_formed overrides ->
    build_mapping atf_cols fb_cols overrides fuzzy_cutoff = Ok (mapping, details) ->
    (forall r, In r details -> In (detail_col r) (Dict.keys overrides) ->
               is_override_kind (detail_kind r) = true)
    /\ (forall c ref, In (c, ref) overrides ->
          exists r,
            In r details /\ detail_col r = c
            /\ is_override_kind (detail_kind r) = true
            /\ (forall r', In r' details -> detail_col r' = c -> r' = r)
            /\ (in_list ref atf_cols = false ->
                Dict.get (atf_norm_map_of atf_cols) (norm ref) = None ->
                r = (c, "", OVERRIDE_NOT_FOUND)
                /\ Dict.get mapping c = Some None))
    /\ build_mapping ["Brand"; "Maker"] ["Manufacturer"]
                     [("Manufacturer", "Brand")] (84 # 100)
       = Ok ([("Manufacturer", Some "Brand")],
             [("Manufacturer", "Brand", OVERRIDE)]).
Proof.
  intros atf fb ov cutoff m d Hwf Hrun.
  pose proof (build_mapping_rows _ _ _ _ Hrun) as Hrows.
  destruct (build_mapping_shape _ _ _ Hwf Hrun) as [(Hkeys & Hnd & Hvals) Hcols].
  simpl in Hkeys, Hnd, Hvals. rewrite Forall_forall in Hrows, Hvals.
  split; [|split].
  - intros r Hr Hin. eapply derived_override_kind; eauto.
  - intros c ref Hin.
    assert (Hc : In c (Dict.keys ov)) by (apply (in_map fst _ _ Hin)).
    assert (Hcol : In c (map detail_col d)).
    { rewrite Hcols. apply in_or_app. now left. }
    apply in_map_iff in Hcol as [r [Hrc Hr]]. exists r.
    pose proof (Hrows r Hr) as Hder.
    split; [exact Hr | split; [exact Hrc | split; [|split]]].
    + apply (derived_override_kind Hder). now rewrite Hrc.
    + intros r' Hr' Hc'. rewrite Hkeys in Hnd.
      apply (nodup_map_inj detail_col d); congruence.
    + intros Hlit Hget.
      assert (Hrow : r = (c, "", OVERRIDE_NOT_FOUND)).
      { destruct Hder as [c0 ref0 Hin0 Hlit0|c0 ref0 src Hin0 Hlit0 Hget0
                          |c0 ref0 Hin0 Hlit0 Hget0|c0 src Hfresh|c0 src Hfresh
                          |c0 k rest src Hfresh|c0 Hfresh];
          unfold detail_col in Hrc; simpl in Hrc; subst c0;
          try (exfalso; now apply Hfresh);
          pose proof (well_formed_value c ref ref0 Hwf Hin Hin0) as <-;
          congruence. }
      split; [exact Hrow|].
      rewrite <- Hrc, (Hvals r Hr), Hrow. reflexivity.
  - vm_compute. reflexivity.
Qed.

Lemma override_is_final_witness :
  well_formed [("Manufacturer", "Brand")]
  /\ build_mapping ["Brand"; "Maker"] ["Manufacturer"]
                   [("Manufacturer", "Brand")] (84 # 100)
     = Ok ([("Manufacturer", Some "Brand")], [("Manufacturer", "Brand", OVERRIDE)])
  /\ (forall r, In r [("Manufacturer", "Brand", OVERRIDE)] ->
        In (detail_col r) (Dict.keys [("Manufacturer", "Brand")]) ->
        is_override_kind (detail_kind r) = true).
Proof.
  assert (Hwf : well_formed [("Manufacturer", "Brand")]) by nodup_explicit.
  assert (Hrun : build_mapping ["Brand"; "Maker"] ["Manufacturer"]
                               [("Manufacturer", "Brand")] (84 # 100)
                 = Ok ([("Manufacturer", Some "Brand")],
                       [("Manufacturer", "Brand", OVERRIDE)]))
    by (vm_compute; reflexivity).
  split; [exact Hwf | split; [exact Hrun|]].
  exact (proj1 (@override_is_final _ _ _ _ _ _ Hwf Hrun)).
Defined.

(** ** Duplicate normalized keys *)

(** C3, as stated, fails: the columns Model and MODEL have the same key,
    and the target column model resolves through the index to MODEL, which
    is not the first column with that key. *)
Lemma duplicate_key_resolves_to_later_column :
  norm "Model" = norm "MODEL"
  /\ build_mapping ["Model"; "MODEL"] ["model"] [] (84 # 100)
     = Ok ([("model", Some "MODEL")], [("model", "MODEL", DIRECT)])
  /\ build_mapping ["Model"; "MODEL"] ["Type"] [("Type", "mo-del")] (84 # 100)
     = Ok ([("Type", Some "MODEL")], [("Type", "MODEL", OVERRIDE_NORMALIZED)])
  /\ build_mapping ["Mdl"; "MDL"] ["Model"] [] (84 # 100)
     = Ok ([("Model", Some "MDL")], [("Model", "MDL", ALIAS)])
  /\ build_mapping ["Modelx1"; "MODELX1"] ["Modelx"] [] (84 # 100)
     = Ok ([("Modelx", Some "MODELX1")], [("Modelx", "MODELX1", FUZZY)])
  /\ (first_with_key ["Model"; "MODEL"] "MODEL" -> False).
Proof.
  repeat split; try (vm_compute; reflexivity).
  intros (before & after & Heq & Hfirst).
  destruct before as [|x before].
  - discriminate Heq.
  - injection Heq as <- Heq. apply (Hfirst "Model"); [now left | reflexivity].
Qed.

(** C3, amended.  Every resolution that goes through the normalized source
    index (DIRECT, ALIAS, FUZZY and OVERRIDE_NORMALIZED) resolves to the
    last column of the source columns that has the normalized key; the
    earlier columns with the same key are ignored. *)
Theorem index_resolves_to_last_occurrence :
  forall atf_cols fb_cols overrides fuzzy_cutoff mapping details,
    build_mapping atf_cols fb_cols overrides fuzzy_cutoff = Ok (mapping, details) ->
    forall r, In r details -> is_index_kind (detail_kind r) = true ->
              last_with_key atf_cols (detail_src r).
Proof.
  intros atf fb ov cutoff m d Hrun r Hr Hkind.
  pose proof (build_mapping_rows _ _ _ _ Hrun) as Hrows.
  rewrite Forall_forall in Hrows.
  destruct (derived_index_kind (Hrows r Hr) Hkind) as [k Hk].
  now apply atf_norm_map_last in Hk.
Qed.

Lemma index_resolves_to_last_occurrence_witness :
  build_mapping ["Model"; "MODEL"] ["model"] [] (84 # 100)
  = Ok ([("model", Some "MODEL")], [("model", "MODEL", DIRECT)])
  /\ last_with_key ["Model"; "MODEL"] "MODEL".
Proof.
  assert (Hrun : build_mapping ["Model"; "MODEL"] ["model"] [] (84 # 100)
                 = Ok ([("model", Some "MODEL")], [("model", "MODEL", DIRECT)]))
    by (vm_compute; reflexivity).
  split; [exact Hrun|].
  apply (@index_resolves_to_last_occurrence _ _ _ _ _ _ Hrun ("model", "MODEL", DIRECT)).
  - simpl. left. reflexivity.
  - reflexivity.
Defined.

(** ** Coherence of the two results *)

(** C10.  No column appears twice in the trace; a row is MISSING or
    OVERRIDE_NOT_FOUND exactly when [mapping] holds [None] for its column,
    and then its source field is empty; in every other row the source field
    is the value [mapping] holds for the column and is one of the source
    columns. *)
Theorem outputs_coherent :
  forall atf_cols fb_cols overrides fuzzy_cutoff mapping details,
    well_formed overrides ->
    build_mapping atf_cols fb_cols overrides fuzzy_cutoff = Ok (mapping, details) ->
    NoDup (map detail_col details)
    /\ forall r, In r details ->
         (is_unresolved_kind (detail_kind r) = true
          <-> Dict.get mapping (detail_col r) = Some None)
         /\ (is_unresolved_kind (detail_kind r) = true -> detail_src r = "")
         /\ (is_unresolved_kind (detail_kind r) = false ->
             Dict.get mapping (detail_col r) = Some (Some (detail_src r))
             /\ In (detail_src r) atf_cols).
Proof.
  intros atf fb ov cutoff m d Hwf Hrun.
  pose proof (build_mapping_rows _ _ _ _ Hrun) as Hrows.
  destruct (build_mapping_shape _ _ _ Hwf Hrun) as [(Hkeys & Hnd & Hvals) _].
  simpl in Hkeys, Hnd, Hvals. rewrite Forall_forall in Hrows, Hvals.
  split; [now rewrite <- Hkeys|].
  intros r Hr. pose proof (derived_source (Hrows r Hr)) as Hsrc.
  rewrite (Hvals r Hr). unfold mapped_value.
  destruct r as [[c src] kind]. unfold detail_kind, detail_src in *. simpl in *.
  destruct kind; simpl in *; repeat split; intros; try congruence; try discriminate.
Qed.

Lemma outputs_coherent_witness :
  well_formed [("Model", "Model"); ("Extra", "Nope")]
  /\ NoDup (map detail_col
                [("Model", "Model", OVERRIDE); ("Extra", "", OVERRIDE_NOT_FOUND);
                 ("Manufacturer", "Maker", ALIAS)]).
Proof.
  assert (Hwf : well_formed [("Model", "Model"); ("Extra", "Nope")])
    by nodup_explicit.
  split; [exact Hwf|].
  refine (proj1 (@outputs_coherent ["Maker"; "Model"] ["Manufacturer"; "Model"]
                   [("Model", "Model"); ("Extra", "Nope")] (84 # 100)
                   [("Model", Some "Model"); ("Extra", None);
                    ("Manufacturer", Some "Maker")]
                   _ Hwf _)).
  vm_compute. reflexivity.
Defined.

(** ** What [get_close_matches] returns *)

Lemma in_range_iff :
  forall cutoff, in_range cutoff = true <-> (0 <= cutoff)%Q /\ (cutoff <= 1)%Q.
Proof.
  intros cutoff. unfold in_range. rewrite andb_true_iff, !Qle_bool_iff. tauto.
Qed.

Lemma py_max_in :
  forall items p, Difflib.py_max items = Some p -> In p items.
Proof.
  intros [|q rest] p; simpl; [discriminate|]. intros [= <-].
  revert q. induction rest as [|x rest IH]; intros q; simpl.
  - now left.
  - destruct (Difflib.pair_gtb x q).
    + destruct (IH x) as [<-|Hin]; auto.
    + destruct (IH q) as [<-|Hin]; auto.
Qed.

Lemma py_max_none :
  forall items, Difflib.py_max items = None -> items = [].
Proof. intros [|q rest]; simpl; [reflexivity | discriminate]. Qed.

(** In range, the call returns no key or one key of [possibilities] that
    passes the three tests; out of range it raises [ValueError]. *)
Lemma get_close_matches_cases :
  forall word possibilities cutoff,
    (in_range cutoff = true
     /\ ((Difflib.get_close_matches word possibilities cutoff = Ok []
          /\ forall x, In x possibilities ->
                       Difflib.good_enough word cutoff x = false)
         \/ exists k,
              Difflib.get_close_matches word possibilities cutoff = Ok [k]
              /\ In k possibilities
              /\ Difflib.good_enough word cutoff k = true))
    \/ (in_range cutoff = false
        /\ Difflib.get_close_matches word possibilities cutoff
           = Raise (ValueError "cutoff must be in [0.0, 1.0]")).
Proof.
  intros word poss cutoff. unfold Difflib.get_close_matches. fold (in_range cutoff).
  destruct (in_range cutoff); simpl; [left | right; auto].
  split; [reflexivity|].
  destruct (Difflib.py_max
              (map (fun x => (Difflib.score word x, x))
                   (filter (Difflib.good_enough word cutoff) poss)))
    as [[s k]|] eqn:Hmax.
  - right. exists k. split; [reflexivity|].
    apply py_max_in, in_map_iff in Hmax as (x & [= _ ->] & Hx).
    now apply filter_In in Hx.
  - left. split; [reflexivity|].
    apply py_max_none, map_eq_nil in Hmax.
    intros x Hx. destruct (Difflib.good_enough word cutoff x) eqn:Hg; [|reflexivity].
    assert (Hin : In x (filter (Difflib.good_enough word cutoff) poss))
      by (apply filter_In; auto).
    rewrite Hmax in Hin. destruct Hin.
Qed.

(** ** [build_mapping] returns for every cutoff in range *)

Section Returns.
Variables (atf_cols : list string) (fuzzy_cutoff : Q).
Local Notation "'idx'" := (atf_norm_map_of atf_cols).

Lemma resolve_column_returns :
  forall (st : State) c,
    in_range fuzzy_cutoff = true ->
    exists st', resolve_column idx fuzzy_cutoff st c = Ok st'.
Proof.
  intros st c Hrange. unfold resolve_column.
  remember (alias_loop idx (norm c) ALIASES None) as hit eqn:Hhit.
  destruct (Dict.mem (fst st) c); [eauto|].
  destruct (Dict.get idx (norm c)); [eauto|].
  destruct (hit_truthy hit); [eauto|].
  unfold fuzzy_stage, bind.
  destruct (get_close_matches_cases (norm c) (Dict.keys idx) fuzzy_cutoff)
    as [[_ [[-> _]|(k & -> & Hk & _)]]|[Hout _]]; [eauto| |congruence].
  apply get_in_keys in Hk.
  destruct (Dict.get idx k); [eauto | congruence].
Qed.

Lemma resolve_column_raises :
  forall (st : State) c e,
    resolve_column idx fuzzy_cutoff st c = Raise e ->
    e = ValueError "cutoff must be in [0.0, 1.0]" /\ in_range fuzzy_cutoff = false.
Proof.
  intros st c e. unfold resolve_column.
  remember (alias_loop idx (norm c) ALIASES None) as hit eqn:Hhit.
  destruct (Dict.mem (fst st) c); [discriminate|].
  destruct (Dict.get idx (norm c)); [discriminate|].
  destruct (hit_truthy hit); [discriminate|].
  unfold fuzzy_stage, bind.
  destruct (get_close_matches_cases (norm c) (Dict.keys idx) fuzzy_cutoff)
    as [[_ [[-> _]|(k & -> & Hk & _)]]|[Hout ->]]; [discriminate| |].
  - apply get_in_keys in Hk.
    destruct (Dict.get idx k); [discriminate | congruence].
  - intros [= <-]. auto.
Qed.

Lemma resolve_column_shape :
  forall (st st' : State) c,
    resolve_column idx fuzzy_cutoff st c = Ok st' ->
    (Dict.mem (fst st) c = true /\ st' = st)
    \/ exists src kind, st' = record st c src kind.
Proof.
  intros st st' c. unfold resolve_column.
  remember (alias_loop idx (norm c) ALIASES None) as hit eqn:Hhit.
  destruct (Dict.mem (fst st) c) eqn:Hmem.
  - intros Heq. left. split; [reflexivity | congruence].
  - intros Hres. right.
    destruct (Dict.get idx (norm c)) as [s|];
      [exists (Some s), DIRECT; congruence|].
    destruct (hit_truthy hit); [exists hit, ALIAS; congruence|].
    unfold fuzzy_stage, bind in Hres.
    destruct (Difflib.get_close_matches (norm c) (Dict.keys idx) fuzzy_cutoff)
      as [[|k0 rest]|e]; try discriminate; [exists None, MISSING; congruence|].
    destruct (Dict.get idx k0) as [s|];
      [exists (Some s), FUZZY; congruence | discriminate].
Qed.

Lemma record_same_columns :
  forall (st : State) c src kind,
    same_columns st -> same_columns (record st c src kind).
Proof.
  intros st c src kind Hsame k.
  rewrite record_keys, record_cols, in_app_iff, (Hsame k). simpl. intuition.
Qed.

Lemma pass1_same_columns :
  forall items (st : State),
    same_columns st ->
    same_columns (fold_left (apply_override atf_cols idx) items st).
Proof.
  induction items as [|[c ref] items IH]; intros st Hsame; cbn [fold_left].
  - assumption.
  - apply IH. unfold apply_override.
    destruct (in_list ref atf_cols); [now apply record_same_columns|].
    destruct (Dict.get idx (norm ref)); now apply record_same_columns.
Qed.

Lemma pass2_returns :
  forall fb_cols (st : State),
    in_range fuzzy_cutoff = true ->
    exists st', for_each (resolve_column idx fuzzy_cutoff) fb_cols st = Ok st'.
Proof.
  induction fb_cols as [|c fb_cols IH]; intros st Hrange; cbn [for_each].
  - eauto.
  - destruct (resolve_column_returns st c Hrange) as [st1 ->]. unfold bind.
    now apply IH.
Qed.

Lemma pass2_raises :
  forall fb_cols (st : State) e,
    for_each (resolve_column idx fuzzy_cutoff) fb_cols st = Raise e ->
    e = ValueError "cutoff must be in [0.0, 1.0]" /\ in_range fuzzy_cutoff = false.
Proof.
  induction fb_cols as [|c fb_cols IH]; intros st e; cbn [for_each].
  - discriminate.
  - unfold bind.
    destruct (resolve_column idx fuzzy_cutoff st c) as [st1|e1] eqn:Hstep.
    + apply IH.
    + intros [= <-]. now apply resolve_column_raises in Hstep.
Qed.

Lemma pass2_covers :
  forall fb_cols (st st' : State),
    for_each (resolve_column idx fuzzy_cutoff) fb_cols st = Ok st' ->
    same_columns st ->
    same_columns st'
    /\ forall k, In k fb_cols \/ In k (Dict.keys (fst st)) ->
                 In k (Dict.keys (fst st')).
Proof.
  induction fb_cols as [|c fb_cols IH]; intros st st' Hrun Hsame;
    cbn [for_each] in Hrun.
  - injection Hrun as <-. split; [assumption | intros k [[]|Hk]; assumption].
  - unfold bind in Hrun.
    destruct (resolve_column idx fuzzy_cutoff st c) as [st1|e] eqn:Hstep;
      [|discriminate].
    destruct (resolve_column_shape st c Hstep) as [[Hmem ->]|(src & kind & ->)].
    + destruct (IH st st' Hrun Hsame) as [Hs Hcov]. split; [assumption|].
      intros k [[<-|Hk]|Hk]; apply Hcov; auto.
      right. now apply mem_in_keys.
    + destruct (IH _ st' Hrun (record_same_columns c src kind Hsame)) as [Hs Hcov].
      split; [assumption|].
      intros k Hk. apply Hcov. rewrite record_keys. simpl in Hk.
      intuition congruence.
Qed.
End Returns.

Lemma build_mapping_raises :
  forall atf_cols fb_cols overrides fuzzy_cutoff e,
    build_mapping atf_cols fb_cols overrides fuzzy_cutoff = Raise e ->
    e = ValueError "cutoff must be in [0.0, 1.0]" /\ in_range fuzzy_cutoff = false.
Proof. intros atf fb ov cutoff e. unfold build_mapping. apply pass2_raises. Qed.

(** ** Exceptions *)

(** C4, as stated, fails: with the cutoff 1.5 the target column Foobar
    reaches the fuzzy stage and [get_close_matches] raises [ValueError]. *)
Lemma cutoff_out_of_range_raises :
  build_mapping ["Other"] ["Foobar"] [] (3 # 2)
  = Raise (ValueError "cutoff must be in [0.0, 1.0]").
Proof. vm_compute. reflexivity. Qed.

(** C4, amended.  For every list of source columns, every list of target
    columns, every overrides map and every cutoff from 0 to 1,
    [build_mapping] returns normally, and every target column has a row in
    the trace it returns. *)
Theorem build_mapping_returns_in_range :
  forall atf_cols fb_cols overrides fuzzy_cutoff,
    (0 <= fuzzy_cutoff)%Q -> (fuzzy_cutoff <= 1)%Q ->
    exists mapping details,
      build_mapping atf_cols fb_cols overrides fuzzy_cutoff = Ok (mapping, details)
      /\ forall c, In c fb_cols -> exists r, In r details /\ detail_col r = c.
Proof.
  intros atf fb ov cutoff H0 H1.
  assert (Hrange : in_range cutoff = true) by (apply in_range_iff; auto).
  unfold build_mapping.
  set (st1 := fold_left (apply_override atf (atf_norm_map_of atf)) ov ([], [])).
  destruct (@pass2_returns atf cutoff fb st1 Hrange) as [[m d] Hrun].
  exists m, d. split; [exact Hrun|].
  assert (Hsame1 : same_columns st1).
  { apply pass1_same_columns. intros k. simpl. tauto. }
  destruct (@pass2_covers atf cutoff fb st1 (m, d) Hrun Hsame1) as [Hsame Hcov].
  intros c Hc.
  assert (Hin : In c (map detail_col d)).
  { apply (Hsame c). apply Hcov. now left. }
  apply in_map_iff in Hin as [r [Hr Hin]]. eauto.
Qed.

Lemma build_mapping_returns_in_range_witness :
  (0 <= 84 # 100)%Q /\ (84 # 100 <= 1)%Q
  /\ exists mapping details,
       build_mapping ["Maker"; "Item#"; "Other"]
                     ["Manufacturer"; "SKU"; "Unmapped Field"] [] (84 # 100)
       = Ok (mapping, details)
       /\ forall c, In c ["Manufacturer"; "SKU"; "Unmapped Field"] ->
                    exists r, In r details /\ detail_col r = c.
Proof.
  assert (H0 : (0 <= 84 # 100)%Q) by (vm_compute; discriminate).
  assert (H1 : (84 # 100 <= 1)%Q) by (vm_compute; discriminate).
  split; [exact H0 | split; [exact H1|]].
  exact (@build_mapping_returns_in_range
           ["Maker"; "Item#"; "Other"] ["Manufacturer"; "SKU"; "Unmapped Field"]
           [] (84 # 100) H0 H1).
Defined.

(** ** The report and the exit status *)

Lemma append_if_rule :
  forall key rules ks h,
    append_if (any_in key ks) h (hints_of key rules)
    = hints_of key (rules ++ [(ks, h)]).
Proof.
  intros key rules ks h. unfold hints_of, append_if.
  rewrite filter_app, map_app. simpl.
  destruct (any_in key ks); simpl; [reflexivity | now rewrite app_nil_r].
Qed.

Lemma guidance_text_by_rules :
  forall col, guidance_text col = guidance_by_rules col.
Proof.
  intros col. unfold guidance_text, guidance_by_rules. cbv zeta.
  rewrite (append_if_rule (Str.lower col) [] _ HINT_SERIAL : append_if _ _ [] = _).
  rewrite !append_if_rule. cbn [app].
  change (hints_of (Str.lower col) _) with (matching_hints (Str.lower col)).
  destruct (matching_hints (Str.lower col)); reflexivity.
Qed.

Lemma filter_length_zero :
  forall (A : Type) (p : A -> bool) l,
    (length (filter p l) =? 0)%nat = negb (existsb p l).
Proof.
  induction l as [|x l IH]; simpl; [reflexivity|].
  destruct (p x); simpl; [reflexivity | exact IH].
Qed.

Lemma main_after_mapping :
  forall args atf_columns fb_columns overrides mapping details,
    build_mapping atf_columns fb_columns overrides (fuzzy_cutoff args)
    = Ok (mapping, details) ->
    main args atf_columns fb_columns overrides
    = if existsb (unmapped mapping) fb_columns && strict args
      then {| mapping_report := details;
              missing_guidance := guidance_rows fb_columns mapping;
              confirmed := false;
              ending := Traceback (NameError "sys") |}
      else {| mapping_report := details;
              missing_guidance := guidance_rows fb_columns mapping;
              confirmed := true;
              ending := Returned |}.
Proof.
  intros args atf fb ov m d Hrun. unfold main. rewrite Hrun.
  rewrite filter_length_zero, negb_involutive.
  destruct (existsb (unmapped m) fb && strict args); reflexivity.
Qed.

(** ** Further facts about [build_mapping] *)

Lemma comprehension_keys_in :
  forall (A : Type) (key : A -> string) (value : A -> string) xs k,
    In k (Dict.keys (Dict.comprehension key value xs)) <-> In k (map key xs).
Proof.
  intros A key value xs k. induction xs as [|x xs IH] using rev_ind.
  - simpl. tauto.
  - rewrite comprehension_snoc, in_keys_set, map_app, in_app_iff, IH. simpl.
    intuition congruence.
Qed.

(** Every source column finds, under its key, a column with the same key. *)
Lemma atf_norm_map_lookup :
  forall atf_cols s,
    In s atf_cols ->
    exists s', Dict.get (atf_norm_map_of atf_cols) (norm s) = Some s'
               /\ norm s' = norm s /\ last_with_key atf_cols s'.
Proof.
  intros atf s Hs.
  assert (Hk : In (norm s) (Dict.keys (atf_norm_map_of atf))).
  { apply comprehension_keys_in. now apply in_map. }
  apply get_in_keys in Hk.
  destruct (Dict.get (atf_norm_map_of atf) (norm s)) as [s'|] eqn:Hget;
    [|congruence].
  exists s'. split; [reflexivity|]. now apply atf_norm_map_last.
Qed.

Lemma target_has_row :
  forall atf_cols fb_cols overrides fuzzy_cutoff mapping details,
    build_mapping atf_cols fb_cols overrides fuzzy_cutoff = Ok (mapping, details) ->
    forall c, In c fb_cols -> exists r, In r details /\ detail_col r = c.
Proof.
  intros atf fb ov cutoff m d Hrun c Hc. unfold build_mapping in Hrun.
  set (st1 := fold_left (apply_override atf (atf_norm_map_of atf)) ov ([], []))
    in Hrun.
  assert (Hsame1 : same_columns st1).
  { apply pass1_same_columns. intros k. simpl. tauto. }
  destruct (@pass2_covers atf cutoff fb st1 (m, d) Hrun Hsame1) as [Hsame Hcov].
  assert (Hin : In c (map detail_col d)).
  { apply (Hsame c). apply Hcov. now left. }
  apply in_map_iff in Hin as [r [Hr Hin]]. eauto.
Qed.

(** Direct match comes first.  When a target column is not an override key
    and some source column has the same normalized name, its row is DIRECT
    and names the last source column with that key, whatever the alias
    table or the fuzzy stage would give. *)
Theorem direct_match_precedes :
  forall atf_cols fb_cols overrides fuzzy_cutoff mapping details c s,
    build_mapping atf_cols fb_cols overrides fuzzy_cutoff = Ok (mapping, details) ->
    In c fb_cols -> ~ In c (Dict.keys overrides) ->
    In s atf_cols -> norm s = norm c ->
    exists src,
      In (c, src, DIRECT) details
      /\ norm src = norm c /\ last_with_key atf_cols src
      /\ forall r, In r details -> detail_col r = c -> detail_kind r = DIRECT.
Proof.
  intros atf fb ov cutoff m d c s Hrun Hc Hfresh Hs Hkey.
  destruct (atf_norm_map_lookup atf s Hs) as (src & Hget & Hnorm & Hlast).
  rewrite Hkey in Hget, Hnorm.
  pose proof (build_mapping_rows _ _ _ _ Hrun) as Hrows.
  rewrite Forall_forall in Hrows.
  assert (Hkind : forall r, In r d -> detail_col r = c ->
                            r = (c, src, DIRECT)).
  { intros r Hr Hrc. pose proof (Hrows r Hr) as Hder.
    destruct Hder as [c0 ref0 Hin0 Hlit0|c0 ref0 src0 Hin0 Hlit0 Hget0
                      |c0 ref0 Hin0 Hlit0 Hget0|c0 src0 Hfresh0 Hget0
                      |c0 src0 Hfresh0 Hget0|c0 k rest src0 Hfresh0 Hget0
                      |c0 Hfresh0 Hget0];
      unfold detail_col in Hrc; simpl in Hrc; subst c0;
      try (exfalso; apply Hfresh; apply (in_map fst _ _ Hin0));
      congruence. }
  destruct (target_has_row _ _ _ _ Hrun c Hc) as (r & Hr & Hrc).
  exists src. repeat split; try assumption.
  - now rewrite <- (Hkind r Hr Hrc).
  - intros r' Hr' Hrc'. now rewrite (Hkind r' Hr' Hrc').
Qed.

Lemma direct_match_precedes_witness :
  exists src,
    In ("Model", src, DIRECT) [("Model", "MODEL", DIRECT)]
    /\ norm src = norm "Model" /\ last_with_key ["Maker"; "MODEL"] src
    /\ forall r, In r [("Model", "MODEL", DIRECT)] -> detail_col r = "Model" ->
                 detail_kind r = DIRECT.
Proof.
  apply (@direct_match_precedes ["Maker"; "MODEL"] ["Model"] [] (84 # 100)
           [("Model", Some "MODEL")] [("Model", "MODEL", DIRECT)]
           "Model" "MODEL").
  - vm_compute. reflexivity.
  - simpl. auto.
  - simpl. tauto.
  - simpl. auto.
  - reflexivity.
Defined.

(** An override that names a source column exactly maps to that very
    column, also when another column has the same normalized key; a
    reference that is no source column but whose key is in the index maps
    to the indexed column as OVERRIDE_NORMALIZED. *)
Theorem override_reference_resolution :
  forall atf_cols fb_cols overrides fuzzy_cutoff mapping details c ref,
    well_formed overrides ->
    build_mapping atf_cols fb_cols overrides fuzzy_cutoff = Ok (mapping, details) ->
    In (c, ref) overrides ->
    (In ref atf_cols ->
     In (c, ref, OVERRIDE) details /\ Dict.get mapping c = Some (Some ref))
    /\ (~ In ref atf_cols ->
        forall src, Dict.get (atf_norm_map_of atf_cols) (norm ref) = Some src ->
          In (c, src, OVERRIDE_NORMALIZED) details
          /\ Dict.get mapping c = Some (Some src)
          /\ norm src = norm ref).
Proof.
  intros atf fb ov cutoff m d c ref Hwf Hrun Hin.
  pose proof (build_mapping_rows _ _ _ _ Hrun) as Hrows.
  destruct (build_mapping_shape _ _ _ Hwf Hrun) as [(Hkeys & Hnd & Hvals) Hcols].
  simpl in Hkeys, Hnd, Hvals. rewrite Forall_forall in Hrows, Hvals.
  assert (Hc : In c (Dict.keys ov)) by (apply (in_map fst _ _ Hin)).
  assert (Hcol : In c (map detail_col d)).
  { rewrite Hcols. apply in_or_app. now left. }
  apply in_map_iff in Hcol as [r [Hrc Hr]].
  pose proof (Hrows r Hr) as Hder. pose proof (Hvals r Hr) as Hval.
  rewrite Hrc in Hval.
  split.
  - intros Hlit. apply in_list_true in Hlit.
    assert (Hrow : r = (c, ref, OVERRIDE)).
    { destruct Hder as [c0 ref0 Hin0 Hlit0|c0 ref0 src0 Hin0 Hlit0 Hget0
                        |c0 ref0 Hin0 Hlit0 Hget0|c0 src0 Hfresh0 Hget0
                        |c0 src0 Hfresh0 Hget0|c0 k rest src0 Hfresh0 Hget0
                        |c0 Hfresh0 Hget0];
        unfold detail_col in Hrc; simpl in Hrc; subst c0;
        try (exfalso; now apply Hfresh0);
        pose proof (well_formed_value c ref ref0 Hwf Hin Hin0) as <-;
        congruence. }
    subst r. split; [exact Hr | exact Hval].
  - intros Hlit src Hget. apply in_list_false in Hlit.
    assert (Hrow : r = (c, src, OVERRIDE_NORMALIZED)).
    { destruct Hder as [c0 ref0 Hin0 Hlit0|c0 ref0 src0 Hin0 Hlit0 Hget0
                        |c0 ref0 Hin0 Hlit0 Hget0|c0 src0 Hfresh0 Hget0
                        |c0 src0 Hfresh0 Hget0|c0 k rest src0 Hfresh0 Hget0
                        |c0 Hfresh0 Hget0];
        unfold detail_col in Hrc; simpl in Hrc; subst c0;
        try (exfalso; now apply Hfresh0);
        pose proof (well_formed_value c ref ref0 Hwf Hin Hin0) as <-;
        congruence. }
    subst r. split; [exact Hr | split; [exact Hval|]].
    now apply atf_norm_map_last in Hget.
Qed.

Lemma override_reference_resolution_witness :
  (In "Model" ["Model"; "MODEL"] ->
   In ("Type", "Model", OVERRIDE) [("Type", "Model", OVERRIDE)]
   /\ Dict.get [("Type", Some "Model")] "Type" = Some (Some "Model"))
  /\ (~ In "Model" ["Model"; "MODEL"] ->
      forall src,
        Dict.get (atf_norm_map_of ["Model"; "MODEL"]) (norm "Model") = Some src ->
        In ("Type", src, OVERRIDE_NORMALIZED) [("Type", "Model", OVERRIDE)]
        /\ Dict.get [("Type", Some "Model")] "Type" = Some (Some src)
        /\ norm src = norm "Model").
Proof.
  apply (@override_reference_resolution ["Model"; "MODEL"] ["Type"]
           [("Type", "Model")] (84 # 100)).
  - nodup_explicit.
  - vm_compute. reflexivity.
  - simpl. auto.
Defined.

(** ** Headers that already agree *)

Lemma pass2_direct_returns :
  forall atf_cols fuzzy_cutoff fb_cols (st : State),
    (forall c, In c fb_cols ->
               Dict.get (atf_norm_map_of atf_cols) (norm c) <> None) ->
    exists st',
      for_each (resolve_column (atf_norm_map_of atf_cols) fuzzy_cutoff) fb_cols st
      = Ok st'.
Proof.
  intros atf cutoff. induction fb_cols as [|c fb IH]; intros st Hall;
    cbn [for_each].
  - eauto.
  - assert (Hstep : exists st1,
               resolve_column (atf_norm_map_of atf) cutoff st c = Ok st1).
    { unfold resolve_column.
      remember (alias_loop (atf_norm_map_of atf) (norm c) ALIASES None) as hit.
      destruct (Dict.mem (fst st) c); [eauto|].
      destruct (Dict.get (atf_norm_map_of atf) (norm c)) eqn:Hget; [eauto|].
      exfalso. apply (Hall c); [now left | assumption]. }
    destruct Hstep as [st1 ->]. unfold bind. apply IH.
    intros x Hx. apply Hall. now right.
Qed.

Lemma map_rebuild :
  forall (A B : Type) (f : B -> A) (g : A -> B) (l : list A),
    (forall x, In x l -> x = f (g x)) -> l = map f (map g l).
Proof.
  induction l as [|x l IH]; simpl; intros Hall; [reflexivity|].
  f_equal; [apply Hall; now left | apply IH; intros y Hy; apply Hall; now right].
Qed.

Lemma last_with_key_unique :
  forall cols c s,
    NoDup (map norm cols) -> In s cols -> last_with_key cols c ->
    norm c = norm s -> c = s.
Proof.
  intros cols c s Hnd Hs Hlast Hkey.
  apply (nodup_map_inj norm cols); try assumption.
  now apply last_with_key_in.
Qed.

(** When the target columns are the source columns themselves and there
    are no overrides, [build_mapping] returns for every cutoff, in range or
    not; every row is DIRECT and names a source column with the key of the
    target; and when the keys of the columns are distinct each column is
    mapped to itself, in order. *)
Theorem same_headers_map_directly :
  forall cols fuzzy_cutoff,
    exists mapping details,
      build_mapping cols cols [] fuzzy_cutoff = Ok (mapping, details)
      /\ (forall r, In r details ->
            detail_kind r = DIRECT /\ norm (detail_src r) = norm (detail_col r)
            /\ In (detail_col r) cols)
      /\ (NoDup (map norm cols) ->
          details = map (fun c => (c, c, DIRECT)) cols
          /\ forall c, In c cols -> Dict.get mapping c = Some (Some c)).
Proof.
  intros cols cutoff.
  destruct (pass2_direct_returns cols cutoff cols ([], [])) as [[m d] Hrun].
  { intros c Hc. destruct (atf_norm_map_lookup cols c Hc) as (s & -> & _).
    discriminate. }
  assert (Hbuild : build_mapping cols cols [] cutoff = Ok (m, d)) by exact Hrun.
  exists m, d. split; [exact Hbuild|].
  pose proof (build_mapping_rows _ _ _ _ Hbuild) as Hrows.
  assert (Hwf : well_formed (@nil (string * string))) by constructor.
  destruct (build_mapping_shape _ _ _ Hwf Hbuild) as [(Hkeys & Hnd & Hvals) Hcols].
  simpl in Hkeys, Hnd, Hvals, Hcols. rewrite Forall_forall in Hrows, Hvals.
  assert (Hrow : forall r, In r d ->
                   In (detail_col r) cols
                   /\ exists src, r = (detail_col r, src, DIRECT)
                                  /\ Dict.get (atf_norm_map_of cols)
                                              (norm (detail_col r)) = Some src).
  { intros r Hr.
    assert (Hc : In (detail_col r) cols).
    { destruct (proj1 (fresh_columns_in cols [] (detail_col r))) as [[]|Hc];
        [|exact Hc].
      simpl. rewrite <- Hcols. now apply in_map. }
    split; [exact Hc|].
    destruct (atf_norm_map_lookup cols _ Hc) as (s & Hget & _).
    pose proof (Hrows r Hr) as Hder.
    destruct Hder as [c0 ref0 Hin0 Hlit0|c0 ref0 src0 Hin0 Hlit0 Hget0
                      |c0 ref0 Hin0 Hlit0 Hget0|c0 src0 Hfresh0 Hget0
                      |c0 src0 Hfresh0 Hget0|c0 k rest src0 Hfresh0 Hget0
                      |c0 Hfresh0 Hget0];
      try (now destruct Hin0); unfold detail_col in *; cbn [fst snd] in *;
      try congruence.
    exists src0. split; [reflexivity | assumption]. }
  split.
  - intros r Hr. destruct (Hrow r Hr) as (Hc & src & Heq & Hget).
    rewrite Heq at 1 2. unfold detail_kind, detail_src. simpl.
    split; [reflexivity | split; [|exact Hc]].
    now apply atf_norm_map_last in Hget.
  - intros Hkeysnd.
    assert (Hself : forall r, In r d -> r = (detail_col r, detail_col r, DIRECT)).
    { intros r Hr. destruct (Hrow r Hr) as (Hc & src & Heq & Hget).
      apply atf_norm_map_last in Hget as [Hk Hlast].
      pose proof (@last_with_key_unique cols src (detail_col r)
                    Hkeysnd Hc Hlast Hk) as Hsame.
      rewrite Hsame in Heq. exact Heq. }
    assert (Hcols' : map detail_col d = cols).
    { rewrite Hcols. apply fresh_columns_all.
      - now apply NoDup_map_inv in Hkeysnd.
      - intros c _ []. }
    split.
    + rewrite <- Hcols'.
      apply (map_rebuild (fun c => (c, c, DIRECT)) detail_col d Hself).
    + intros c Hc. rewrite <- Hcols' in Hc.
      apply in_map_iff in Hc as (r & <- & Hr).
      rewrite (Hvals r Hr). rewrite (Hself r Hr) at 1. reflexivity.
Qed.

(** ** The alias stage *)

Lemma first_alias_sound :
  forall idx names hit c,
    first_alias idx names hit = Some c ->
    hit = Some c \/ exists a, In a names /\ Dict.get idx (norm a) = Some c.
Proof.
  induction names as [|a names IH]; simpl; intros hit c Hf.
  - now left.
  - destruct (Dict.get idx (norm a)) as [c'|] eqn:Hget.
    + injection Hf as <-. right. exists a. auto.
    + destruct (IH _ _ Hf) as [Hh|(a' & Ha' & Hg)]; [now left|].
      right. exists a'. auto.
Qed.

Lemma alias_loop_sound :
  forall idx fb_key groups hit c,
    alias_loop idx fb_key groups hit = Some c ->
    hit = Some c
    \/ exists group a,
         In group groups /\ group_matches fb_key group = true
         /\ In a (group_names group) /\ Dict.get idx (norm a) = Some c.
Proof.
  induction groups as [|[target alias_list] groups IH]; intros hit c Hl.
  - now left.
  - cbn [alias_loop] in Hl.
    set (matched := String.eqb fb_key target
                    || in_list fb_key (map norm (alias_list ++ [target]))) in Hl.
    assert (Hhead : forall h,
               (if matched
                then first_alias idx (alias_list ++ [target]) hit
                else hit) = Some h ->
               hit = Some h
               \/ exists a, matched = true /\ In a (alias_list ++ [target])
                            /\ Dict.get idx (norm a) = Some h).
    { intros h Hh. destruct matched; [|now left].
      apply first_alias_sound in Hh as [Hh|(a & Ha & Hg)]; [now left|].
      right. exists a. auto. }
    destruct (hit_truthy (if matched
                          then first_alias idx (alias_list ++ [target]) hit
                          else hit)).
    + destruct (Hhead c Hl) as [Hh|(a & Hm & Ha & Hg)]; [now left|].
      right. exists (target, alias_list), a. split; [now left|]. auto.
    + destruct (IH _ _ Hl) as [Hh|(group & a & Hin & Hm & Ha & Hg)].
      * destruct (Hhead c Hh) as [Hh'|(a & Hm & Ha & Hg)]; [now left|].
        right. exists (target, alias_list), a. split; [now left|]. auto.
      * right. exists group, a. split; [now right|]. auto.
Qed.

(** An ALIAS row names a synonym.  The target key belongs to some group of
    the alias table, and the source column has the normalized name of one
    of the names of that group. *)
Theorem alias_row_is_synonym :
  forall atf_cols fb_cols overrides fuzzy_cutoff mapping details r,
    build_mapping atf_cols fb_cols overrides fuzzy_cutoff = Ok (mapping, details) ->
    In r details -> detail_kind r = ALIAS ->
    exists group a,
      In group ALIASES
      /\ group_matches (norm (detail_col r)) group = true
      /\ In a (group_names group)
      /\ norm (detail_src r) = norm a
      /\ In (detail_src r) atf_cols
      /\ forall s, In s atf_cols -> norm s <> norm (detail_col r).
Proof.
  intros atf fb ov cutoff m d r Hrun Hr Hkind.
  pose proof (build_mapping_rows _ _ _ _ Hrun) as Hrows.
  rewrite Forall_forall in Hrows. pose proof (Hrows r Hr) as Hder.
  destruct Hder as [c0 ref0 Hin0 Hlit0|c0 ref0 src0 Hin0 Hlit0 Hget0
                    |c0 ref0 Hin0 Hlit0 Hget0|c0 src0 Hfresh0 Hget0
                    |c0 src0 Hfresh0 Hget0 Hloop Htruthy
                    |c0 k rest src0 Hfresh0 Hget0|c0 Hfresh0 Hget0];
    try discriminate Hkind.
  unfold detail_col, detail_src. cbn [fst snd].
  apply alias_loop_sound in Hloop as [Hh|(group & a & Hin & Hm & Ha & Hg)];
    [discriminate|].
  exists group, a. repeat split; try assumption.
  - now apply atf_norm_map_last in Hg.
  - now apply atf_norm_map_in in Hg.
  - intros s Hs Hkey.
    destruct (atf_norm_map_lookup atf s Hs) as (s' & Hget & _).
    rewrite Hkey in Hget. congruence.
Qed.

Lemma alias_row_is_synonym_witness :
  exists group a,
    In group ALIASES
    /\ group_matches (norm (detail_col ("SKU", "Item#", ALIAS))) group = true
    /\ In a (group_names group)
    /\ norm (detail_src ("SKU", "Item#", ALIAS)) = norm a
    /\ In (detail_src ("SKU", "Item#", ALIAS)) ["Maker"; "Item#"]
    /\ forall s, In s ["Maker"; "Item#"] ->
                 norm s <> norm (detail_col ("SKU", "Item#", ALIAS)).
Proof.
  apply (@alias_row_is_synonym ["Maker"; "Item#"] ["SKU"] [] (84 # 100)
           [("SKU", Some "Item#")] [("SKU", "Item#", ALIAS)]).
  - vm_compute. reflexivity.
  - simpl. auto.
  - reflexivity.
Defined.

Lemma first_alias_found :
  forall idx names hit a,
    In a names -> Dict.get idx (norm a) <> None ->
    exists a' c,
      In a' names /\ Dict.get idx (norm a') = Some c
      /\ first_alias idx names hit = Some c.
Proof.
  induction names as [|x names IH]; simpl; intros hit a Ha Hget; [tauto|].
  destruct (Dict.get idx (norm x)) as [c|] eqn:Hx.
  - exists x, c. auto.
  - destruct Ha as [->|Ha]; [congruence|].
    destruct (IH hit a Ha Hget) as (a' & c & Ha' & Hg & Hf).
    exists a', c. auto.
Qed.

(** No name of the alias table has an empty key. *)
Lemma alias_names_have_keys :
  forall group a,
    In group ALIASES -> In a (group_names group) -> norm a <> "".
Proof.
  assert (Hall : forallb (fun group =>
                            forallb (fun a => negb (String.eqb (norm a) ""))
                                    (group_names group))
                         ALIASES = true) by (vm_compute; reflexivity).
  intros group a Hg Ha Hempty.
  rewrite forallb_forall in Hall. specialize (Hall group Hg).
  rewrite forallb_forall in Hall. specialize (Hall a Ha).
  rewrite Hempty in Hall. discriminate.
Qed.

Lemma keyed_column_truthy :
  forall c, norm c <> "" -> Str.truthy c = true.
Proof. intros [|x c]; [intros H; now elim H | reflexivity]. Qed.

Lemma alias_loop_complete :
  forall idx fb_key groups hit group a,
    (forall k c, Dict.get idx k = Some c -> norm c = k) ->
    (forall g x, In g groups -> In x (group_names g) -> norm x <> "") ->
    In group groups -> group_matches fb_key group = true ->
    In a (group_names group) -> Dict.get idx (norm a) <> None ->
    hit_truthy (alias_loop idx fb_key groups hit) = true.
Proof.
  induction groups as [|[target alias_list] groups IH];
    intros hit group a Hidx Hkeys Hin Hm Ha Hget; [destruct Hin|].
  cbn [alias_loop].
  set (matched := String.eqb fb_key target
                  || in_list fb_key (map norm (alias_list ++ [target]))).
  destruct (hit_truthy (if matched
                        then first_alias idx (alias_list ++ [target]) hit
                        else hit)) eqn:Htruthy; [exact Htruthy|].
  destruct Hin as [<-|Hin].
  - exfalso. unfold group_matches, group_names in Hm, Ha. cbn [fst snd] in Hm, Ha.
    fold matched in Hm. rewrite Hm in Htruthy.
    destruct (first_alias_found idx (alias_list ++ [target]) hit a Ha Hget)
      as (a' & c & Ha' & Hg & Hf).
    rewrite Hf in Htruthy. simpl in Htruthy.
    rewrite keyed_column_truthy in Htruthy; [discriminate|].
    rewrite (Hidx _ _ Hg).
    apply (Hkeys (target, alias_list) a'); [now left | exact Ha'].
  - apply (IH _ group a); try assumption.
    intros g x Hg Hx. apply (Hkeys g x); [now right | exact Hx].
Qed.

(** A synonym in the source is always used.  When a target column is not
    an override key, no source column has its normalized name, and some
    source column has the normalized name of a name in an alias group to
    which the target key belongs, then the column is resolved by ALIAS:
    the fuzzy stage is not reached, so no cutoff can raise for it. *)
Theorem synonym_in_source_gives_alias :
  forall atf_cols fb_cols overrides fuzzy_cutoff mapping details c group a s,
    build_mapping atf_cols fb_cols overrides fuzzy_cutoff = Ok (mapping, details) ->
    In c fb_cols -> ~ In c (Dict.keys overrides) ->
    (forall s', In s' atf_cols -> norm s' <> norm c) ->
    In group ALIASES -> group_matches (norm c) group = true ->
    In a (group_names group) -> In s atf_cols -> norm s = norm a ->
    exists src, In (c, src, ALIAS) details
                /\ forall r, In r details -> detail_col r = c ->
                             detail_kind r = ALIAS.
Proof.
  intros atf fb ov cutoff m d c group a s Hrun Hc Hfresh Hnodirect Hg Hm Ha Hs Hkey.
  assert (Hhit : hit_truthy (alias_loop (atf_norm_map_of atf) (norm c) ALIASES None)
                 = true).
  { apply (alias_loop_complete (atf_norm_map_of atf) (norm c) ALIASES None group a);
      try assumption.
    - intros k x Hget. now apply atf_norm_map_last in Hget.
    - apply alias_names_have_keys.
    - destruct (atf_norm_map_lookup atf s Hs) as (s' & Hget & _).
      rewrite <- Hkey, Hget. discriminate. }
  pose proof (build_mapping_rows _ _ _ _ Hrun) as Hrows.
  rewrite Forall_forall in Hrows.
  assert (Hkind : forall r, In r d -> detail_col r = c ->
                            exists src, r = (c, src, ALIAS)).
  { intros r Hr Hrc. pose proof (Hrows r Hr) as Hder.
    destruct Hder as [c0 ref0 Hin0 Hlit0|c0 ref0 src0 Hin0 Hlit0 Hget0
                      |c0 ref0 Hin0 Hlit0 Hget0|c0 src0 Hfresh0 Hget0
                      |c0 src0 Hfresh0 Hget0 Hloop Htruthy
                      |c0 k rest src0 Hfresh0 Hget0 Hnohit
                      |c0 Hfresh0 Hget0 Hnohit];
      unfold detail_col in Hrc; cbn [fst snd] in Hrc; subst c0;
      try (exfalso; apply Hfresh; apply (in_map fst _ _ Hin0));
      try congruence.
    - exfalso. apply atf_norm_map_last in Hget0 as [Hk Hlast].
      apply (Hnodirect src0); [now apply last_with_key_in | exact Hk].
    - eauto. }
  destruct (target_has_row _ _ _ _ Hrun c Hc) as (r & Hr & Hrc).
  destruct (Hkind r Hr Hrc) as [src Heq]. exists src. split.
  - now rewrite <- Heq.
  - intros r' Hr' Hrc'. destruct (Hkind r' Hr' Hrc') as [src' ->]. reflexivity.
Qed.

Lemma synonym_in_source_gives_alias_witness :
  exists src, In ("Manufacturer", src, ALIAS) [("Manufacturer", "Maker", ALIAS)]
              /\ forall r, In r [("Manufacturer", "Maker", ALIAS)] ->
                           detail_col r = "Manufacturer" -> detail_kind r = ALIAS.
Proof.
  apply (@synonym_in_source_gives_alias ["Maker"; "Other"] ["Manufacturer"] []
           (3 # 2) [("Manufacturer", Some "Maker")]
           [("Manufacturer", "Maker", ALIAS)] "Manufacturer"
           ("manufacturer", ["manufacturer"; "maker"; "make"]) "maker" "Maker").
  - vm_compute. reflexivity.
  - simpl. auto.
  - simpl. tauto.
  - intros s' [<-|[<-|[]]]; vm_compute; discriminate.
  - simpl. auto.
  - vm_compute. reflexivity.
  - simpl. auto.
  - simpl. auto.
  - vm_compute. reflexivity.
Defined.

Lemma same_headers_map_directly_witness :
  exists mapping details,
    build_mapping ["Model"; "Maker"] ["Model"; "Maker"] [] (3 # 2)
    = Ok (mapping, details)
    /\ (forall r, In r details ->
          detail_kind r = DIRECT /\ norm (detail_src r) = norm (detail_col r)
          /\ In (detail_col r) ["Model"; "Maker"])
    /\ (NoDup (map norm ["Model"; "Maker"]) ->
        details = map (fun c => (c, c, DIRECT)) ["Model"; "Maker"]
        /\ forall c, In c ["Model"; "Maker"] ->
                     Dict.get mapping c = Some (Some c)).
Proof. exact (same_headers_map_directly ["Model"; "Maker"] (3 # 2)). Defined.

(** ** When [build_mapping] raises *)

Section Raising.
Variables (atf_cols : list string) (fuzzy_cutoff : Q)
          (overrides : dict string string).
Local Notation "'idx'" := (atf_norm_map_of atf_cols).

Lemma resolve_column_fuzzy_raises :
  forall (st : State) c,
    in_range fuzzy_cutoff = false ->
    Dict.mem (fst st) c = false ->
    Dict.get idx (norm c) = None ->
    hit_truthy (alias_loop idx (norm c) ALIASES None) = false ->
    resolve_column idx fuzzy_cutoff st c
    = Raise (ValueError "cutoff must be in [0.0, 1.0]").
Proof.
  intros st c Hrange Hmem Hget Hhit. unfold resolve_column.
  remember (alias_loop idx (norm c) ALIASES None) as hit eqn:Hdef.
  rewrite Hmem, Hget, Hhit. unfold fuzzy_stage, bind.
  destruct (get_close_matches_cases (norm c) (Dict.keys idx) fuzzy_cutoff)
    as [[Hin _]|[_ ->]]; [congruence | reflexivity].
Qed.

Lemma resolve_column_ok_stages :
  forall (st st' : State) c,
    in_range fuzzy_cutoff = false ->
    resolve_column idx fuzzy_cutoff st c = Ok st' ->
    Dict.mem (fst st) c = true
    \/ Dict.get idx (norm c) <> None
    \/ hit_truthy (alias_loop idx (norm c) ALIASES None) = true.
Proof.
  intros st st' c Hrange Hres.
  destruct (Dict.mem (fst st) c) eqn:Hmem; [now left|].
  destruct (Dict.get idx (norm c)) eqn:Hget; [right; left; discriminate|].
  destruct (hit_truthy (alias_loop idx (norm c) ALIASES None)) eqn:Hhit;
    [now right; right|].
  rewrite (resolve_column_fuzzy_raises st c Hrange Hmem Hget Hhit) in Hres.
  discriminate.
Qed.

Lemma pass2_raises_when_fuzzy_reached :
  forall fb_cols (st : State) c,
    in_range fuzzy_cutoff = false ->
    In c fb_cols -> ~ In c (Dict.keys (fst st)) ->
    Dict.get idx (norm c) = None ->
    hit_truthy (alias_loop idx (norm c) ALIASES None) = false ->
    for_each (resolve_column idx fuzzy_cutoff) fb_cols st
    = Raise (ValueError "cutoff must be in [0.0, 1.0]").
Proof.
  induction fb_cols as [|x fb IH]; intros st c Hrange Hc Hfresh Hget Hhit;
    [destruct Hc|].
  cbn [for_each]. unfold bind.
  destruct (resolve_column idx fuzzy_cutoff st x) as [st1|e] eqn:Hstep.
  - destruct (String.eqb_spec x c) as [->|Hne].
    + apply mem_false_not_in in Hfresh.
      rewrite (resolve_column_fuzzy_raises st c Hrange Hfresh Hget Hhit) in Hstep.
      discriminate.
    + destruct Hc as [Hc|Hc]; [congruence|].
      apply (IH st1 c); try assumption.
      destruct (resolve_column_shape atf_cols fuzzy_cutoff st x Hstep)
        as [[_ ->]|(src & kind & ->)]; [assumption|].
      rewrite record_keys. intros [Heq|Hin]; [congruence | contradiction].
  - destruct (@resolve_column_raises atf_cols fuzzy_cutoff st x e Hstep) as [-> _].
    reflexivity.
Qed.

Lemma pass2_raise_reaches_fuzzy :
  forall fb_cols (st : State) e,
    for_each (resolve_column idx fuzzy_cutoff) fb_cols st = Raise e ->
    exists c,
      In c fb_cols /\ ~ In c (Dict.keys (fst st))
      /\ Dict.get idx (norm c) = None
      /\ hit_truthy (alias_loop idx (norm c) ALIASES None) = false.
Proof.
  induction fb_cols as [|x fb IH]; intros st e Hrun; cbn [for_each] in Hrun;
    [discriminate|].
  unfold bind in Hrun.
  destruct (resolve_column idx fuzzy_cutoff st x) as [st1|e1] eqn:Hstep.
  - destruct (IH st1 e Hrun) as (c & Hc & Hfresh & Hget & Hhit).
    exists c. split; [now right|]. split; [|auto].
    destruct (resolve_column_shape atf_cols fuzzy_cutoff st x Hstep)
      as [[_ ->]|(src & kind & ->)]; [assumption|].
    intros Hin. apply Hfresh. rewrite record_keys. now right.
  - exists x. split; [now left|].
    unfold resolve_column in Hstep.
    remember (alias_loop idx (norm x) ALIASES None) as hit eqn:Hdef.
    destruct (Dict.mem (fst st) x) eqn:Hmem; [discriminate|].
    destruct (Dict.get idx (norm x)); [discriminate|].
    destruct (hit_truthy hit); [discriminate|].
    split; [now apply mem_false_not_in | auto].
Qed.
End Raising.

(** [build_mapping] raises exactly when the cutoff is outside [0, 1] and
    some target column reaches the fuzzy stage, that is, is neither an
    override key, nor matched directly, nor matched by an alias; the
    exception is then the [ValueError] of [get_close_matches]. *)
Theorem build_mapping_raises_iff :
  forall atf_cols fb_cols overrides fuzzy_cutoff,
    (exists e, build_mapping atf_cols fb_cols overrides fuzzy_cutoff = Raise e)
    <-> (in_range fuzzy_cutoff = false
         /\ exists c, In c fb_cols /\ reaches_fuzzy atf_cols overrides c).
Proof.
  intros atf fb ov cutoff. unfold build_mapping, reaches_fuzzy.
  set (st1 := fold_left (apply_override atf (atf_norm_map_of atf)) ov ([], [])).
  assert (Hkeys : forall k, In k (Dict.keys (fst st1)) <-> In k (Dict.keys ov)).
  { intros k. unfold st1.
    rewrite (@pass1_keys atf cutoff ov ov ([], []) k (incl_refl _)).
    simpl. tauto. }
  split.
  - intros [e Hrun].
    split; [exact (proj2 (@pass2_raises atf cutoff fb st1 e Hrun))|].
    destruct (@pass2_raise_reaches_fuzzy atf cutoff fb st1 e Hrun)
      as (c & Hc & Hfresh & Hget & Hhit).
    exists c. rewrite Hkeys in Hfresh. auto.
  - intros (Hrange & c & Hc & Hfresh & Hget & Hhit).
    rewrite <- Hkeys in Hfresh. eexists.
    exact (@pass2_raises_when_fuzzy_reached atf cutoff fb st1 c
             Hrange Hc Hfresh Hget Hhit).
Qed.

(** The only exception [build_mapping] raises is that [ValueError]. *)
Theorem build_mapping_raises_only_value_error :
  forall atf_cols fb_cols overrides fuzzy_cutoff e,
    build_mapping atf_cols fb_cols overrides fuzzy_cutoff = Raise e ->
    e = ValueError "cutoff must be in [0.0, 1.0]"
    /\ ~ ((0 <= fuzzy_cutoff)%Q /\ (fuzzy_cutoff <= 1)%Q).
Proof.
  intros atf fb ov cutoff e Hrun.
  apply build_mapping_raises in Hrun as [-> Hrange]. split; [reflexivity|].
  rewrite <- in_range_iff. congruence.
Qed.

Lemma build_mapping_raises_only_value_error_witness :
  ValueError "cutoff must be in [0.0, 1.0]"
  = ValueError "cutoff must be in [0.0, 1.0]"
  /\ ~ ((0 <= 3 # 2)%Q /\ (3 # 2 <= 1)%Q).
Proof.
  apply (@build_mapping_raises_only_value_error ["Other"] ["Foobar"] [] (3 # 2)).
  vm_compute. reflexivity.
Defined.

(** ** [norm] and separators *)

Local Open Scope string_scope.

Lemma isalnum_lower_char :
  forall c, Str.isalnum (Str.lower_char c) = Str.isalnum c.
Proof. intros [[] [] [] [] [] [] [] []]; vm_compute; reflexivity. Qed.




Lemma norm_cons :
  forall c s,
    norm (String c s)
    = if Str.isalnum c then String (Str.lower_char c) (norm s) else norm s.
Proof.
  intros c s. unfold norm. simpl. now rewrite isalnum_lower_char.
Qed.



(** The key is empty exactly when the name has no alphanumeric character. *)
Theorem norm_empty_iff :
  forall s,
    norm s = ""
    <-> Forall (fun c => Str.isalnum c = false) (list_ascii_of_string s).
Proof.
  induction s as [|c s IH]; simpl.
  - split; [constructor | reflexivity].
  - rewrite norm_cons. destruct (Str.isalnum c) eqn:Hc.
    + split; [discriminate|]. intros H. inversion H; congruence.
    + rewrite IH. split.
      * intros H. now constructor.
      * intros H. now inversion H.
Qed.

Local Open Scope list_scope.

(** ** What [main] reports *)

(** A target column counts as unmapped exactly when its row carries no
    source or an empty source name. *)
Lemma unmapped_row :
  forall atf_cols fb_cols overrides fuzzy_cutoff mapping details,
    well_formed overrides ->
    build_mapping atf_cols fb_cols overrides fuzzy_cutoff = Ok (mapping, details) ->
    forall c, In c fb_cols ->
      exists r,
        In r details /\ detail_col r = c
        /\ (unmapped mapping c = true
            <-> is_unresolved_kind (detail_kind r) = true \/ detail_src r = "").
Proof.
  intros atf fb ov cutoff m d Hwf Hrun c Hc.
  destruct (build_mapping_shape _ _ _ Hwf Hrun) as [(Hkeys & Hnd & Hvals) Hcols].
  simpl in Hkeys, Hnd, Hvals. rewrite Forall_forall in Hvals.
  destruct (target_has_row _ _ _ _ Hrun c Hc) as (r & Hr & Hrc).
  exists r. split; [exact Hr | split; [exact Hrc|]].
  unfold unmapped. rewrite <- Hrc, (Hvals r Hr). unfold mapped_value.
  destruct r as [[c0 src] kind]. unfold detail_kind, detail_src. cbn [fst snd].
  destruct kind; cbn [is_unresolved_kind];
    try (split; [now left | reflexivity]);
    destruct src; cbn [Str.truthy negb];
    (split; [intros Hu; try discriminate Hu; now right
            |intros [Hu|Hu]; try discriminate Hu; reflexivity]).
Qed.

(** The sheet "Missing & Guidance" has one row for each target column, in
    target-column order, for which [mapping] holds no source: the columns
    whose row in the trace is MISSING and also those whose row is
    OVERRIDE_NOT_FOUND (and a column resolved to a source with an empty
    name); no other target column has a row. *)
Theorem guidance_rows_follow_mapping :
  forall args atf_columns fb_columns overrides mapping details,
    well_formed overrides ->
    build_mapping atf_columns fb_columns overrides (fuzzy_cutoff args)
    = Ok (mapping, details) ->
    missing_guidance (main args atf_columns fb_columns overrides)
    = map (fun col => (col, guidance_by_rules col))
          (filter (unmapped mapping) fb_columns)
    /\ forall c, In c fb_columns ->
         exists r,
           In r details /\ detail_col r = c
           /\ (In (c, guidance_by_rules c)
                  (missing_guidance (main args atf_columns fb_columns overrides))
               <-> is_unresolved_kind (detail_kind r) = true \/ detail_src r = "").
Proof.
  intros args atf fb ov m d Hwf Hrun.
  assert (Hrows : missing_guidance (main args atf fb ov)
                  = map (fun col => (col, guidance_by_rules col))
                        (filter (unmapped m) fb)).
  { rewrite (main_after_mapping _ _ _ _ Hrun).
    transitivity (guidance_rows fb m).
    - destruct (existsb (unmapped m) fb && strict args); reflexivity.
    - unfold guidance_rows. apply map_ext. intros col.
      now rewrite guidance_text_by_rules. }
  split; [exact Hrows|].
  intros c Hc.
  destruct (unmapped_row _ _ _ Hwf Hrun c Hc) as (r & Hr & Hrc & Hiff).
  exists r. split; [exact Hr | split; [exact Hrc|]].
  rewrite <- Hiff, Hrows, in_map_iff. split.
  - intros (x & Heq & Hx). injection Heq as ->. now apply filter_In in Hx.
  - intros Hu. exists c. split; [reflexivity | apply filter_In; auto].
Qed.

Lemma guidance_rows_follow_mapping_witness :
  missing_guidance (main {| strict := false; fuzzy_cutoff := 84 # 100 |}
                         ["Other"] ["Model"; "Unmapped Field"]
                         [("Model", "Nope")])
  = map (fun col => (col, guidance_by_rules col))
        (filter (unmapped [("Model", None); ("Unmapped Field", None)])
                ["Model"; "Unmapped Field"]).
Proof.
  refine (proj1 (@guidance_rows_follow_mapping
                   {| strict := false; fuzzy_cutoff := 84 # 100 |}
                   ["Other"] ["Model"; "Unmapped Field"] [("Model", "Nope")]
                   [("Model", None); ("Unmapped Field", None)]
                   [("Model", "", OVERRIDE_NOT_FOUND);
                    ("Unmapped Field", "", MISSING)]
                   _ _)).
  - nodup_explicit.
  - vm_compute. reflexivity.
Defined.

Lemma join_nonempty :
  forall sep h rest, h <> "" -> Str.join sep (h :: rest) <> "".
Proof.
  intros sep h rest Hh. destruct h as [|c h]; [now elim Hh|].
  destruct rest; simpl; discriminate.
Qed.

Lemma matching_hints_nonempty :
  forall key h, In h (matching_hints key) -> h <> "".
Proof.
  intros key h Hin. unfold matching_hints in Hin.
  apply in_map_iff in Hin as (rule & <- & Hrule).
  apply filter_In in Hrule as [Hrule _].
  assert (Hall : forallb (fun rule => negb (String.eqb (snd rule) ""))
                         GUIDANCE_RULES = true) by (vm_compute; reflexivity).
  rewrite forallb_forall in Hall. specialize (Hall rule Hrule).
  intros Heq. rewrite Heq in Hall. discriminate.
Qed.

(** The guidance text of a column is what the ordered rule table gives:
    the hints of the rules one of whose keywords occurs in the lower-cased
    column name, in table order, joined with " | ", or the generic hint
    when no rule matches.  It does not depend on the case of the column
    name and it is never empty. *)
Theorem guidance_text_follows_rules :
  forall col,
    guidance_text col = guidance_by_rules col
    /\ guidance_text (Str.lower col) = guidance_text col
    /\ guidance_text col <> "".
Proof.
  intros col. split; [apply guidance_text_by_rules|]. split.
  - rewrite !guidance_text_by_rules. unfold guidance_by_rules.
    now rewrite lower_idem.
  - rewrite guidance_text_by_rules. unfold guidance_by_rules.
    destruct (matching_hints (Str.lower col)) as [|h rest] eqn:Hm.
    + apply join_nonempty. discriminate.
    + apply join_nonempty. apply (matching_hints_nonempty (Str.lower col)).
      rewrite Hm. now left.
Qed.


(** ** [read_overrides] *)

Lemma lstrip_no_leading : forall s, no_leading_space (Str.lstrip s).
Proof.
  induction s as [|c s IH]; simpl; [exact I|].
  destruct (Str.isspace c) eqn:Hc; [exact IH | exact Hc].
Qed.

Lemma lstrip_fixed : forall s, no_leading_space s -> Str.lstrip s = s.
Proof. intros [|c s]; simpl; [reflexivity | now intros ->]. Qed.

Lemma rstrip_no_leading :
  forall s, no_leading_space s -> no_leading_space (Str.rstrip s).
Proof.
  intros [|c s]; simpl; [auto|]. intros Hc.
  destruct (Str.rstrip s); [now rewrite Hc | exact Hc].
Qed.

Lemma rstrip_cons :
  forall c s,
    Str.rstrip (String c s)
    = match Str.rstrip s with
      | EmptyString => if Str.isspace c then EmptyString else String c EmptyString
      | r => String c r
      end.
Proof. reflexivity. Qed.

Lemma rstrip_idem : forall s, Str.rstrip (Str.rstrip s) = Str.rstrip s.
Proof.
  induction s as [|c s IH]; [reflexivity|].
  rewrite (rstrip_cons c s).
  destruct (Str.rstrip s) as [|d r] eqn:Hr.
  - destruct (Str.isspace c) eqn:Hc; [reflexivity|].
    rewrite rstrip_cons. cbn [Str.rstrip]. now rewrite Hc.
  - rewrite rstrip_cons, IH. reflexivity.
Qed.

Lemma strip_idem : forall s, Str.strip (Str.strip s) = Str.strip s.
Proof.
  intros s. unfold Str.strip.
  rewrite (lstrip_fixed (Str.rstrip (Str.lstrip s))).
  - apply rstrip_idem.
  - apply rstrip_no_leading, lstrip_no_leading.
Qed.

Lemma comprehension_get_last :
  forall (A : Type) (key value : A -> string) xs k v,
    Dict.get (Dict.comprehension key value xs) k = Some v ->
    exists before x after,
      xs = before ++ x :: after /\ key x = k /\ value x = v
      /\ forall y, In y after -> key y <> k.
Proof.
  intros A key value.
  induction xs as [|x xs IH] using rev_ind; intros k v Hget.
  - discriminate.
  - rewrite comprehension_snoc in Hget.
    destruct (String.eqb_spec k (key x)) as [->|Hne].
    + rewrite get_set_same in Hget. injection Hget as <-.
      exists xs, x, []. repeat split. intros ? [].
    + rewrite get_set_other in Hget by assumption.
      destruct (IH _ _ Hget) as (before & y & after & -> & Hk & Hv & Hafter).
      exists before, y, (after ++ [x]). repeat split; try assumption.
      * now rewrite <- app_assoc.
      * intros z Hz. apply in_app_or in Hz as [Hz|[<-|[]]]; [auto | congruence].
Qed.

(** Which error [read_overrides] raises.  Without a path it returns the
    empty mapping.  A path to a file that does not exist raises
    [FileNotFoundError] whatever its extension.  For a file that exists,
    the "unsupported format" [ValueError] is raised exactly when the
    extension, lower-cased, is none of .csv, .json, .yml, .yaml; a .json
    file always ends in [NameError], because the name [json] is not bound
    in the module; a .yml or .yaml file gives what [yaml.safe_load]
    returns, or [RuntimeError] when PyYAML is missing. *)
Theorem read_overrides_dispatch :
  forall HAS_YAML p,
    read_overrides HAS_YAML None = Ok (PyDict [])
    /\ (exists_ p = false ->
        read_overrides HAS_YAML (Some p) = Raise (FileNotFoundError MSG_NOT_FOUND))
    /\ (exists_ p = true ->
        (read_overrides HAS_YAML (Some p) = Raise (ValueError MSG_UNSUPPORTED)
         <-> ~ In (Str.lower (suffix p)) SUPPORTED_SUFFIXES)
        /\ (Str.lower (suffix p) = ".json" ->
            read_overrides HAS_YAML (Some p) = Raise (NameError "json"))
        /\ (In (Str.lower (suffix p)) [".yml"; ".yaml"] ->
            read_overrides HAS_YAML (Some p)
            = if HAS_YAML then Ok (safe_load p)
              else Raise (RuntimeError MSG_NO_YAML))).
Proof.
  intros has_yaml p. split; [reflexivity|]. split.
  - intros Hex. unfold read_overrides. now rewrite Hex.
  - intros Hex. unfold read_overrides. rewrite Hex. cbn [negb].
    unfold SUPPORTED_SUFFIXES.
    destruct (String.eqb_spec (Str.lower (suffix p)) ".csv") as [Hcsv|Hcsv].
    + rewrite Hcsv. split; [|split].
      * split.
        -- destruct (negb _); intros H; [|discriminate H].
           injection H as H. vm_compute in H. discriminate H.
        -- intros Hn. exfalso. apply Hn. simpl. auto.
      * discriminate.
      * intros [H|[H|[]]]; discriminate H.
    + destruct (in_list (Str.lower (suffix p)) [".json"]) eqn:Hjson.
      * apply in_list_true in Hjson as [Hjson|[]]. rewrite <- Hjson.
        split; [|split].
        -- split; [discriminate|]. intros Hn. exfalso. apply Hn. simpl. auto.
        -- reflexivity.
        -- intros [H|[H|[]]]; discriminate H.
      * apply in_list_false in Hjson.
        destruct (in_list (Str.lower (suffix p)) [".yml"; ".yaml"]) eqn:Hyaml.
        -- apply in_list_true in Hyaml. split; [|split].
           ++ split.
              ** destruct has_yaml; discriminate.
              ** intros Hn. exfalso. apply Hn. simpl in *. tauto.
           ++ intros Hj. exfalso. apply Hjson. simpl. auto.
           ++ intros _. destruct has_yaml; reflexivity.
        -- apply in_list_false in Hyaml. split; [|split].
           ++ split; [|reflexivity]. intros _ Hin. simpl in *.
              intuition congruence.
           ++ intros Hj. exfalso. apply Hjson. simpl. auto.
           ++ intros Hin. contradiction.
Qed.

Lemma read_overrides_dispatch_witness :
  read_overrides true (Some {| suffix := ".JSON"; exists_ := true;
                               read_csv := {| columns := []; rows := [] |};
                               json_loads := PyDict [("Model", "Model")];
                               safe_load := PyOther |})
  = Raise (NameError "json").
Proof.
  refine (proj1 (proj2 (proj2 (proj2 (@read_overrides_dispatch true _)) _)) _);
    reflexivity.
Defined.

(** A CSV override file.  When the header lacks "FastBound Column" or
    "ATF Source" the call raises the "columns" [ValueError].  Otherwise it
    returns a mapping that holds each key once; every entry comes from a
    row of the file, key and value stripped of surrounding white space, so
    that stripping them again changes nothing; every row has its key in
    the mapping; and when several rows have the same stripped key the last
    of them gives the value. *)
Theorem read_overrides_csv :
  forall HAS_YAML p,
    exists_ p = true -> Str.lower (suffix p) = ".csv" ->
    (~ (In "FastBound Column" (columns (read_csv p))
        /\ In "ATF Source" (columns (read_csv p))) ->
     read_overrides HAS_YAML (Some p) = Raise (ValueError MSG_CSV_COLUMNS))
    /\ (In "FastBound Column" (columns (read_csv p)) ->
        In "ATF Source" (columns (read_csv p)) ->
        exists d,
          read_overrides HAS_YAML (Some p) = Ok (PyDict d)
          /\ well_formed d
          /\ (forall r, In r (rows (read_csv p)) ->
                In (Str.strip (r "FastBound Column")) (Dict.keys d))
          /\ (forall k v, Dict.get d k = Some v ->
                Str.strip k = k /\ Str.strip v = v
                /\ exists before r after,
                     rows (read_csv p) = before ++ r :: after
                     /\ k = Str.strip (r "FastBound Column")
                     /\ v = Str.strip (r "ATF Source")
                     /\ forall r', In r' after ->
                          Str.strip (r' "FastBound Column") <> k)).
Proof.
  intros has_yaml p Hex Hcsv. unfold read_overrides.
  rewrite Hex, Hcsv. cbn [negb String.eqb Ascii.eqb Bool.eqb].
  change (String.eqb ".csv" ".csv") with true. cbv iota.
  split.
  - intros Hmiss.
    destruct (in_list "FastBound Column" (columns (read_csv p))) eqn:H1;
      [|reflexivity].
    destruct (in_list "ATF Source" (columns (read_csv p))) eqn:H2;
      [|reflexivity].
    exfalso. apply Hmiss. split; now apply in_list_true.
  - intros H1 H2. apply in_list_true in H1, H2. rewrite H1, H2. cbn [andb negb].
    eexists. split; [reflexivity|]. split; [|split].
    + apply comprehension_keys_nodup.
    + intros r Hr. apply comprehension_keys_in.
      apply (in_map (fun r => Str.strip (r "FastBound Column"))). exact Hr.
    + intros k v Hget.
      destruct (comprehension_get_last _ _ _ _ Hget)
        as (before & r & after & Hrows & Hk & Hv & Hafter).
      subst k v. repeat split; try apply strip_idem.
      exists before, r, after. repeat split; assumption.
Qed.

Lemma read_overrides_csv_witness :
  read_overrides false
    (Some {| suffix := ".csv"; exists_ := true;
             read_csv := {| columns := ["FastBound Column"]; rows := [] |};
             json_loads := PyOther; safe_load := PyOther |})
  = Raise (ValueError MSG_CSV_COLUMNS).
Proof.
  refine (proj1 (@read_overrides_csv false _ _ _) _).
  - reflexivity.
  - reflexivity.
  - simpl. intros [_ [H|[]]]. discriminate H.
Defined.

(** ** The columns of the output sheet *)

Lemma comprehension_keys_distinct :
  forall (V : Type) (value : string -> V) xs,
    NoDup xs -> Dict.keys (Dict.comprehension (fun c => c) value xs) = xs.
Proof.
  intros V value. induction xs as [|x xs IH] using rev_ind; intros Hnd.
  - reflexivity.
  - apply NoDup_remove in Hnd as [Hnd Hx]. rewrite app_nil_r in Hnd, Hx.
    rewrite comprehension_snoc, keys_set_fresh; [now rewrite IH|].
    now rewrite IH.
Qed.

Lemma fold_set_keys :
  forall (V W : Type) (f : V -> W) (items : dict string V) (out : dict string W),
    NoDup (Dict.keys items) ->
    Dict.keys (fold_left (fun o item => Dict.set o (fst item) (f (snd item)))
                         items out)
    = Dict.keys out
      ++ filter (fun k => negb (in_list k (Dict.keys out))) (Dict.keys items).
Proof.
  intros V W f. induction items as [|[k v] items IH]; intros out Hnd;
    cbn [fold_left].
  - simpl. now rewrite app_nil_r.
  - cbn [Dict.keys map fst] in Hnd |- *. inversion Hnd as [|? ? Hk Hnd']; subst.
    rewrite IH by assumption. cbn [filter fst snd].
    destruct (in_list k (Dict.keys out)) eqn:Hin; cbn [negb].
    + apply in_list_true in Hin. rewrite keys_set_present by assumption.
      reflexivity.
    + apply in_list_false in Hin. rewrite keys_set_fresh by assumption.
      rewrite <- app_assoc. cbn [app]. do 2 f_equal.
      apply filter_ext_in. intros x Hx. f_equal.
      destruct (in_list x (Dict.keys out ++ [k])) eqn:H1;
        destruct (in_list x (Dict.keys out)) eqn:H2; try reflexivity.
      * apply in_list_true in H1. apply in_list_false in H2.
        apply in_app_or in H1 as [H1|[<-|[]]]; [contradiction|].
        exfalso. apply Hk. exact Hx.
      * apply in_list_false in H1. apply in_list_true in H2.
        exfalso. apply H1. apply in_or_app. now left.
Qed.

Lemma fold_set_get :
  forall (V W : Type) (f : V -> W) (items : dict string V) (out : dict string W) k,
    NoDup (Dict.keys items) ->
    Dict.get (fold_left (fun o item => Dict.set o (fst item) (f (snd item)))
                        items out) k
    = match Dict.get items k with
      | Some v => Some (f v)
      | None => Dict.get out k
      end.
Proof.
  intros V W f. induction items as [|[k0 v0] items IH]; intros out k Hnd;
    cbn [fold_left].
  - reflexivity.
  - cbn [Dict.keys map fst] in Hnd. inversion Hnd as [|? ? Hk Hnd']; subst.
    rewrite IH by assumption. cbn [Dict.get fst snd].
    change (@keqb string string_EqKey k k0) with (String.eqb k k0).
    destruct (String.eqb_spec k k0) as [->|Hne].
    + apply get_none_not_in in Hk. rewrite Hk. apply get_set_same.
    + destruct (Dict.get items k); [reflexivity|].
      now apply get_set_other.
Qed.

Lemma fresh_columns_subset :
  forall fb seen c, In c (fresh_columns seen fb) -> In c fb /\ ~ In c seen.
Proof.
  induction fb as [|x fb IH]; intros seen c; cbn [fresh_columns]; [intros []|].
  destruct (in_list x seen) eqn:Hx.
  - intros Hc. destruct (IH _ _ Hc). split; [now right | assumption].
  - apply in_list_false in Hx. intros [<-|Hc]; [split; [now left | assumption]|].
    destruct (IH _ _ Hc) as [H1 H2]. split; [now right|].
    intros Hin. apply H2. apply in_or_app. now left.
Qed.

(** The sheet "FastBoundImport" has the template columns in their order,
    followed by one extra column for every override key that is not a
    template column, in the order of the overrides.  Every column that has
    a row in the trace is filled as that row says: copied from the row's
    source column, or blank when the row is MISSING or OVERRIDE_NOT_FOUND
    (or names an empty source); no template column is left untouched. *)
Theorem output_sheet_columns :
  forall atf_cols fb_cols overrides fuzzy_cutoff mapping details,
    well_formed overrides -> NoDup fb_cols ->
    build_mapping atf_cols fb_cols overrides fuzzy_cutoff = Ok (mapping, details) ->
    Dict.keys (out_frame atf_cols fb_cols mapping)
    = fb_cols ++ filter (fun k => negb (in_list k fb_cols)) (Dict.keys overrides)
    /\ (forall r, In r details ->
          Dict.get (out_frame atf_cols fb_cols mapping) (detail_col r)
          = Some (fill_of_row r))
    /\ (forall c, In c fb_cols ->
          Dict.get (out_frame atf_cols fb_cols mapping) c <> Some Untouched
          /\ Dict.get (out_frame atf_cols fb_cols mapping) c <> None).
Proof.
  intros atf fb ov cutoff m d Hwf Hfb Hrun.
  pose proof (build_mapping_rows _ _ _ _ Hrun) as Hrows.
  destruct (build_mapping_shape _ _ _ Hwf Hrun) as [(Hkeys & Hnd & Hvals) Hcols].
  simpl in Hkeys, Hnd, Hvals. rewrite Forall_forall in Hrows, Hvals.
  assert (Hrow : forall r, In r d ->
            Dict.get (out_frame atf fb m) (detail_col r) = Some (fill_of_row r)).
  { intros r Hr. unfold out_frame. rewrite fold_set_get by assumption.
    rewrite (Hvals r Hr). f_equal. unfold fill_for, mapped_value, fill_of_row.
    pose proof (derived_source (Hrows r Hr)) as Hsrc.
    destruct r as [[c src] kind]. unfold detail_kind, detail_src in *.
    cbn [fst snd] in *.
    destruct kind; cbn [is_unresolved_kind orb] in *; try reflexivity;
      apply in_list_true in Hsrc; rewrite Hsrc, andb_true_r;
      destruct (Str.truthy src); reflexivity. }
  split; [|split].
  - unfold out_frame. rewrite fold_set_keys by assumption.
    rewrite comprehension_keys_distinct by assumption. f_equal.
    rewrite Hkeys, Hcols, filter_app.
    assert (Hnil : filter (fun k => negb (in_list k fb))
                          (fresh_columns (Dict.keys ov) fb) = []).
    { destruct (filter (fun k => negb (in_list k fb))
                       (fresh_columns (Dict.keys ov) fb)) as [|x l] eqn:Hf;
        [reflexivity|].
      exfalso.
      assert (Hx : In x (filter (fun k => negb (in_list k fb))
                                (fresh_columns (Dict.keys ov) fb)))
        by (rewrite Hf; now left).
      apply filter_In in Hx as [Hx Hb].
      apply fresh_columns_subset in Hx as [Hx _].
      apply in_list_true in Hx. rewrite Hx in Hb. discriminate. }
    now rewrite Hnil, app_nil_r.
  - exact Hrow.
  - intros c Hc. destruct (target_has_row _ _ _ _ Hrun c Hc) as (r & Hr & <-).
    rewrite (Hrow r Hr). unfold fill_of_row.
    split; [destruct (_ || _); discriminate | discriminate].
Qed.

Lemma output_sheet_columns_witness :
  Dict.keys (out_frame ["Model"] ["Model"]
                       [("Bogus", None); ("Model", Some "Model")])
  = ["Model"] ++ filter (fun k => negb (in_list k ["Model"]))
                        (Dict.keys [("Bogus", "Nothing")]).
Proof.
  refine (proj1 (@output_sheet_columns ["Model"] ["Model"] [("Bogus", "Nothing")]
                   (84 # 100) [("Bogus", None); ("Model", Some "Model")]
                   [("Bogus", "", OVERRIDE_NOT_FOUND); ("Model", "Model", DIRECT)]
                   _ _ _)).
  - nodup_explicit.
  - nodup_explicit.
  - vm_compute. reflexivity.
Defined.

(** ** The blocks [find_longest_match] returns *)

Lemma common_suffix_zero : forall p q, common_suffix 0 p q.
Proof. intros p q. exists p, q, []. now rewrite !app_nil_r. Qed.

Lemma common_suffix_snoc :
  forall k p q x, common_suffix k p q -> common_suffix (S k) (p ++ [x]) (q ++ [x]).
Proof.
  intros k p q x (p0 & q0 & w & -> & -> & Hw).
  exists p0, q0, (w ++ [x]). rewrite <- !app_assoc, length_app, Hw. simpl.
  repeat split. lia.
Qed.

Section MatcherFacts.
Variable pop : ascii -> bool.

Lemma next_row_length :
  forall x b diag j2len, length (Difflib.next_row pop x b diag j2len) = length b.
Proof.
  induction b as [|y b IH]; intros diag j2len; simpl; [reflexivity|].
  now rewrite IH.
Qed.

Lemma next_row_sound :
  forall x brest bpre diag prev p,
    common_suffix diag p bpre ->
    (forall t k, nth_error prev t = Some k ->
                 common_suffix k p (bpre ++ firstn (S t) brest)) ->
    forall t k,
      nth_error (Difflib.next_row pop x brest diag prev) t = Some k ->
      common_suffix k (p ++ [x]) (bpre ++ firstn (S t) brest).
Proof.
  induction brest as [|y brest IH]; intros bpre diag prev p Hdiag Hprev t k Hnth.
  - destruct t; discriminate Hnth.
  - cbn [Difflib.next_row] in Hnth. destruct t as [|t].
    + cbn [nth_error] in Hnth. injection Hnth as <-. cbn [firstn].
      destruct (Ascii.eqb_spec x y) as [->|Hne]; cbn [andb];
        [|apply common_suffix_zero].
      destruct (pop y); cbn [negb]; [apply common_suffix_zero|].
      now apply common_suffix_snoc.
    + cbn [nth_error] in Hnth.
      replace (bpre ++ firstn (S (S t)) (y :: brest))
        with ((bpre ++ [y]) ++ firstn (S t) brest)
        by (rewrite <- app_assoc; reflexivity).
      apply (@IH (bpre ++ [y]) (hd 0 prev) (tl prev) p); [| |exact Hnth].
      * destruct prev as [|q prev]; [apply common_suffix_zero|].
        apply (Hprev 0 q). reflexivity.
      * intros t' k' Ht'.
        replace ((bpre ++ [y]) ++ firstn (S t') brest)
          with (bpre ++ firstn (S (S t')) (y :: brest))
          by (rewrite <- app_assoc; reflexivity).
        apply Hprev. destruct prev; [destruct t'; discriminate Ht' | exact Ht'].
Qed.

Lemma scan_row_sound :
  forall a b p rest row j best,
    a = p ++ rest -> valid_block a b best ->
    (forall t k, nth_error row t = Some k ->
                 j + t < length b
                 /\ common_suffix k p (firstn (S (j + t)) b)) ->
    valid_block a b (Difflib.scan_row (length p - 1) j row best).
Proof.
  intros a b p rest. induction row as [|k row IH]; intros j best Ha Hbest Hrow.
  - exact Hbest.
  - cbn [Difflib.scan_row]. apply IH; [exact Ha| |].
    + destruct (Difflib.bestsize best <? k)%nat eqn:Hlt; [|exact Hbest].
      destruct (Hrow 0 k eq_refl) as [Hj (p0 & q0 & w & Hp & Hq & Hw)].
      rewrite Nat.add_0_r in Hj, Hq.
      exists p0, q0, w, rest, (skipn (S j) b). cbn [fst snd].
      assert (Hlenq : length (firstn (S j) b) = S j)
        by (rewrite length_firstn; lia).
      assert (Hlenp : length p = length p0 + k)
        by (rewrite Hp, length_app; lia).
      rewrite Hq, length_app in Hlenq.
      repeat split.
      * rewrite Ha, Hp, <- app_assoc. reflexivity.
      * rewrite <- (firstn_skipn (S j) b) at 1. rewrite Hq, <- app_assoc.
        reflexivity.
      * apply Nat.ltb_lt in Hlt. lia.
      * lia.
      * exact Hw.
    + intros t k' Ht. replace (S j + t) with (j + S t) by lia.
      apply Hrow. exact Ht.
Qed.

Lemma junk_free_sound :
  forall b rest p j2len best,
    valid_block (p ++ rest) b best ->
    (forall t k, nth_error j2len t = Some k ->
                 common_suffix k p (firstn (S t) b)) ->
    valid_block (p ++ rest) b (Difflib.junk_free pop rest b (length p) j2len best).
Proof.
  intros b. induction rest as [|x rest IH]; intros p j2len best Hbest Hrow.
  - exact Hbest.
  - cbn [Difflib.junk_free].
    assert (Hnew : forall t k,
               nth_error (Difflib.next_row pop x b 0 j2len) t = Some k ->
               t < length b /\ common_suffix k (p ++ [x]) (firstn (S t) b)).
    { intros t k Ht. split.
      - rewrite <- (@next_row_length x b 0 j2len). apply nth_error_Some. congruence.
      - apply (@next_row_sound x b [] 0 j2len p (common_suffix_zero _ _) Hrow t k Ht). }
    replace (p ++ x :: rest) with ((p ++ [x]) ++ rest) in *
      by (rewrite <- app_assoc; reflexivity).
    replace (S (length p)) with (length (p ++ [x]))
      by (rewrite length_app; simpl; lia).
    apply IH.
    + replace (length p) with (length (p ++ [x]) - 1)
        by (rewrite length_app; simpl; lia).
      apply (@scan_row_sound ((p ++ [x]) ++ rest) b (p ++ [x]) rest _ 0 best
               eq_refl Hbest Hnew).
    + intros t k Ht. now apply Hnew.
Qed.

Lemma same_elt_true :
  forall x y, Difflib.same_elt x y = true -> exists c, x = Some c /\ y = Some c.
Proof.
  intros [c|] [d|]; simpl; try discriminate.
  intros H. apply Ascii.eqb_eq in H. subst. eauto.
Qed.

Lemma last_split :
  forall (l : list ascii) n, length l = S n ->
    exists l' x, l = l' ++ [x] /\ length l' = n.
Proof.
  intros l n Hl. destruct (exists_last (l := l)) as (l' & x & ->).
  - intros ->. discriminate.
  - exists l', x. split; [reflexivity|]. rewrite length_app in Hl. simpl in Hl. lia.
Qed.

Lemma extend_left_sound :
  forall a b besti bestj size,
    valid_block a b (besti, bestj, size) ->
    valid_block a b (Difflib.extend_left a b besti bestj size).
Proof.
  intros a b. induction besti as [|i IH]; intros bestj size Hv; [exact Hv|].
  destruct bestj as [|j]; [exact Hv|]. cbn [Difflib.extend_left].
  destruct (Difflib.same_elt (nth_error a i) (nth_error b j)) eqn:Hsame;
    [|exact Hv].
  apply same_elt_true in Hsame as (c & Hai & Hbj).
  apply IH.
  destruct Hv as (a1 & b1 & w & a2 & b2 & Ha & Hb & Ha1 & Hb1 & Hw).
  cbn [fst snd] in *.
  destruct (@last_split a1 i Ha1) as (a1' & x & -> & Hla).
  destruct (@last_split b1 j Hb1) as (b1' & y & -> & Hlb).
  assert (Hx : x = c).
  { rewrite Ha, <- app_assoc, nth_error_app2 in Hai by lia.
    rewrite Hla, Nat.sub_diag in Hai. simpl in Hai. congruence. }
  assert (Hy : y = c).
  { rewrite Hb, <- app_assoc, nth_error_app2 in Hbj by lia.
    rewrite Hlb, Nat.sub_diag in Hbj. simpl in Hbj. congruence. }
  subst x y.
  exists a1', b1', (c :: w), a2, b2. cbn [fst snd].
  repeat split; try assumption.
  - rewrite Ha, <- app_assoc. reflexivity.
  - rewrite Hb, <- app_assoc. reflexivity.
  - simpl. now rewrite Hw.
Qed.

Lemma extend_right_sound :
  forall ra rb w,
    exists w' ra' rb',
      Difflib.extend_right ra rb (length w) = length w'
      /\ w ++ ra = w' ++ ra' /\ w ++ rb = w' ++ rb'.
Proof.
  induction ra as [|x ra IH]; intros rb w.
  - exists w, [], rb. destruct rb; auto.
  - destruct rb as [|y rb]; [exists w, (x :: ra), []; auto|].
    cbn [Difflib.extend_right].
    destruct (Ascii.eqb_spec x y) as [->|Hne];
      [|exists w, (x :: ra), (y :: rb); auto].
    destruct (IH rb (w ++ [y])) as (w' & ra' & rb' & Hlen & Hra & Hrb).
    rewrite length_app in Hlen. simpl in Hlen. rewrite Nat.add_1_r in Hlen.
    rewrite <- app_assoc in Hra, Hrb.
    exists w', ra', rb'. auto.
Qed.

(** What [find_longest_match] returns is a block of the two slices. *)
Lemma find_longest_match_sound :
  forall a b, valid_block a b (Difflib.find_longest_match pop a b).
Proof.
  intros a b. unfold Difflib.find_longest_match.
  assert (H0 : valid_block a b (Difflib.junk_free pop a b 0 [] (0, 0, 0))).
  { apply (@junk_free_sound b a [] [] (0, 0, 0)).
    - exists [], [], [], a, b. repeat split.
    - intros [|t] k Ht; discriminate Ht. }
  destruct (Difflib.junk_free pop a b 0 [] (0, 0, 0)) as [[i0 j0] k0].
  apply extend_left_sound in H0.
  destruct (Difflib.extend_left a b i0 j0 k0) as [[i1 j1] k1].
  destruct H0 as (a1 & b1 & w & a2 & b2 & Ha & Hb & Ha1 & Hb1 & Hw).
  cbn [fst snd] in *.
  assert (Hra : skipn (i1 + k1) a = a2).
  { rewrite Ha, app_assoc, skipn_app, length_app, Ha1, Hw, Nat.sub_diag.
    rewrite skipn_all2 by (rewrite length_app; lia). reflexivity. }
  assert (Hrb : skipn (j1 + k1) b = b2).
  { rewrite Hb, app_assoc, skipn_app, length_app, Hb1, Hw, Nat.sub_diag.
    rewrite skipn_all2 by (rewrite length_app; lia). reflexivity. }
  rewrite Hra, Hrb, <- Hw.
  destruct (extend_right_sound a2 b2 w) as (w' & ra' & rb' & -> & Hwa & Hwb).
  exists a1, b1, w', ra', rb'. cbn [fst snd].
  repeat split; try assumption.
  - now rewrite Ha, Hwa.
  - now rewrite Hb, Hwb.
Qed.
End MatcherFacts.

(** ** The three ratios *)


Lemma valid_block_slices :
  forall a b i j k,
    valid_block a b (i, j, k) ->
    exists w,
      length w = k
      /\ a = firstn i a ++ w ++ skipn (i + k) a
      /\ b = firstn j b ++ w ++ skipn (j + k) b
      /\ i + k <= length a /\ j + k <= length b.
Proof.
  intros a b i j k (a1 & b1 & w & a2 & b2 & Ha & Hb & Ha1 & Hb1 & Hw).
  cbn [fst snd] in *. exists w. split; [exact Hw|].
  assert (Hfa : firstn i a = a1).
  { rewrite Ha, <- Ha1, firstn_app, Nat.sub_diag, firstn_all. simpl.
    now rewrite app_nil_r. }
  assert (Hfb : firstn j b = b1).
  { rewrite Hb, <- Hb1, firstn_app, Nat.sub_diag, firstn_all. simpl.
    now rewrite app_nil_r. }
  assert (Hsa : skipn (i + k) a = a2).
  { rewrite Ha, app_assoc, skipn_app, length_app, Ha1, Hw, Nat.sub_diag.
    rewrite skipn_all2 by (rewrite length_app; lia). reflexivity. }
  assert (Hsb : skipn (j + k) b = b2).
  { rewrite Hb, app_assoc, skipn_app, length_app, Hb1, Hw, Nat.sub_diag.
    rewrite skipn_all2 by (rewrite length_app; lia). reflexivity. }
  rewrite Hfa, Hfb, Hsa, Hsb. repeat split; try assumption.
  - rewrite Ha, !length_app. lia.
  - rewrite Hb, !length_app. lia.
Qed.












(** ** The order on scored keys *)














(** The fuel of [matches] is enough: more fuel gives the same count. *)
Lemma matching_size_fuel :
  forall pop fuel fuel' a b,
    length a < fuel -> length a < fuel' ->
    Difflib.matching_size pop fuel a b = Difflib.matching_size pop fuel' a b.
Proof.
  intros pop. induction fuel as [|fuel IH]; intros fuel' a b Hf Hf'; [lia|].
  destruct fuel' as [|fuel']; [lia|]. cbn [Difflib.matching_size].
  pose proof (find_longest_match_sound pop a b) as Hv.
  destruct (Difflib.find_longest_match pop a b) as [[i j] k].
  destruct (k =? 0)%nat eqn:Hk; [reflexivity|].
  apply Nat.eqb_neq in Hk.
  destruct (valid_block_slices Hv) as (w & Hw & Ha & Hb & Hia & Hjb).
  assert (H1 : length (firstn i a) < length a) by (rewrite length_firstn; lia).
  assert (H2 : length (skipn (i + k) a) < length a) by (rewrite length_skipn; lia).
  rewrite (IH fuel' (firstn i a) (firstn j b)) by lia.
  rewrite (IH fuel' (skipn (i + k) a) (skipn (j + k) b)) by lia.
  reflexivity.
Qed.

(** ** The fuzzy stage *)






(** ** Instances *)



Lemma build_mapping_raises_iff_witness :
  exists e, build_mapping ["Other"] ["Foobar"] [] (3 # 2) = Raise e.
Proof.
  apply (proj2 (build_mapping_raises_iff ["Other"] ["Foobar"] [] (3 # 2))).
  split; [reflexivity|]. exists "Foobar".
  split; [simpl; auto|]. unfold reaches_fuzzy.
  split; [simpl; tauto|]. split; vm_compute; reflexivity.
Defined.


Lemma guidance_text_follows_rules_witness :
  guidance_text "Serial No" = guidance_by_rules "Serial No".
Proof. exact (proj1 (guidance_text_follows_rules "Serial No")). Defined.

Lemma norm_empty_iff_witness : norm "#/- (.)" = "".
Proof.
  apply (proj2 (norm_empty_iff "#/- (.)")).
  repeat constructor.
Defined.
